(** * tedis: the connection core ([src/core/base.ts]) and its wire codec

    The development has three layers.

    - [Protocol]: the RESP codec.  [base.ts] imports it from [./protocol]; the
      definitions here follow the written description of the codec.
    - [Codec]: what [Base] uses of its [protocol] member ([write], [parse],
      [encode]), as a type class, and its RESP instance.
    - [Base] and its methods, translated from [base.ts]: the pending queue
      [callbacks], the promises handed out by [command], the four listener
      slots and the five socket handlers installed by [init]. *)

From Stdlib Require Import ZArith Lia Decimal DecimalZ DecimalPos.
From Stdlib Require Import Strings.Byte Strings.String.
From stdpp Require Import base tactics option list strings.

Local Open Scope Z_scope.
Local Open Scope nat_scope.
Local Open Scope list_scope.

(** Bytes on the wire. *)
Abbreviation bytes := (list byte).

#[global] Instance byte_eq_dec : EqDecision byte := Byte.byte_eq_dec.

(** A command argument as it reaches [command] at run time.  The declared
    type is [string | number]; [Other] stands for any value outside it. *)
Inductive Param := Str (s : bytes) | Num (z : Z) | Other.

(* ===================================================================== *)
(** * The wire codec *)
(* ===================================================================== *)

Module Protocol.

(** Modelled from the spec: [./protocol] is not among the sources.  The
    frame terminator is the two bytes CR LF. *)
Definition CR : byte := x0d.
(** Modelled from the spec: the second byte of the frame terminator. *)
Definition LF : byte := x0a.
(** Modelled from the spec: the frame terminator. *)
Definition CRLF : bytes := [CR; LF].

(** ** Decimal text *)

(** Modelled from the spec: the digits of a decimal number as bytes (the
    text conversion of the absent [Protocol.encode]). *)
Fixpoint bytes_of_uint (d : uint) : bytes :=
  match d with
  | Nil => []
  | D0 d => x30 :: bytes_of_uint d
  | D1 d => x31 :: bytes_of_uint d
  | D2 d => x32 :: bytes_of_uint d
  | D3 d => x33 :: bytes_of_uint d
  | D4 d => x34 :: bytes_of_uint d
  | D5 d => x35 :: bytes_of_uint d
  | D6 d => x36 :: bytes_of_uint d
  | D7 d => x37 :: bytes_of_uint d
  | D8 d => x38 :: bytes_of_uint d
  | D9 d => x39 :: bytes_of_uint d
  end.

(** Modelled from the spec: the digit a byte stands for (the decimal
    parsing of the absent [Protocol.parse]). *)
Definition digit_of_byte (c : byte) : option (uint -> uint) :=
  if decide (c = x30) then Some D0 else
  if decide (c = x31) then Some D1 else
  if decide (c = x32) then Some D2 else
  if decide (c = x33) then Some D3 else
  if decide (c = x34) then Some D4 else
  if decide (c = x35) then Some D5 else
  if decide (c = x36) then Some D6 else
  if decide (c = x37) then Some D7 else
  if decide (c = x38) then Some D8 else
  if decide (c = x39) then Some D9 else None.

(** Modelled from the spec: a run of digit bytes as a decimal number
    (absent [Protocol.parse]). *)
Fixpoint uint_of_bytes (b : bytes) : option uint :=
  match b with
  | [] => Some Nil
  | c :: t =>
    match digit_of_byte c, uint_of_bytes t with
    | Some D, Some d => Some (D d)
    | _, _ => None
    end
  end.

(** Modelled from the spec: the decimal text form of an integer (absent
    [Protocol.encode]): an optional minus sign and the digits, no leading
    zero. *)
Definition decimal (z : Z) : bytes :=
  match Z.to_int z with
  | Pos d => bytes_of_uint d
  | Neg d => x2d :: bytes_of_uint d
  end.

(** Modelled from the spec: the value of a non-empty run of digits (absent
    [Protocol.parse]). *)
Definition digits_value (sign : uint -> Decimal.int) (b : bytes) : option Z :=
  match b with
  | [] => None
  | _ => match uint_of_bytes b with
         | Some d => Some (Z.of_int (sign d))
         | None => None
         end
  end.

(** Modelled from the spec: a decimal field with an optional sign (absent
    [Protocol.parse]); [None] when the field is not numeric. *)
Definition parse_int (b : bytes) : option Z :=
  match b with
  | [] => None
  | c :: t =>
    if decide (c = x2d) then digits_value Neg t
    else if decide (c = x2b) then digits_value Pos t
    else digits_value Pos b
  end.

(** ** Frames *)

(** Modelled from the spec: the scan forward for the frame terminator
    (absent [Protocol.parse]): the bytes before the first CR LF and the bytes
    after it, or [None] when the buffer holds no terminator. *)
Fixpoint take_line (b : bytes) : option (bytes * bytes) :=
  match b with
  | [] => None
  | c :: t =>
    match t with
    | c' :: r =>
      if decide (c = CR /\ c' = LF) then Some ([], r)
      else match take_line t with
           | Some (l, r') => Some (c :: l, r')
           | None => None
           end
    | [] => None
    end
  end.

(** ** Messages *)

(** Modelled from the spec: the decoded form of one server reply (the
    values the absent [Protocol.parse] returns). *)
#[warnings="-register-all"] Inductive WireMessage : Type :=
| Simple (s : bytes)
| Error (s : bytes)
| Integer (z : Z)
| BulkString (b : bytes)
| NullBulk
| Array (l : list WireMessage)
| NullArray.

(** Modelled from the spec: the five reply variants a type byte selects
    (absent [Protocol.parse]). *)
Inductive tag := TSimple | TError | TInteger | TBulk | TArray.

(** Modelled from the spec: the type-discriminator byte (absent
    [Protocol.parse]); a byte with no registered variant gives [None]. *)
Definition tag_of (c : byte) : option tag :=
  if decide (c = x2b) then Some TSimple        (* + *)
  else if decide (c = x2d) then Some TError    (* - *)
  else if decide (c = x3a) then Some TInteger  (* : *)
  else if decide (c = x24) then Some TBulk     (* $ *)
  else if decide (c = x2a) then Some TArray    (* * *)
  else None.

(** Modelled from the spec: the reply serializer, the byte form of one
    message as a server sends it (no source file holds it). *)
Fixpoint serialize (m : WireMessage) : bytes :=
  match m with
  | Simple s => x2b :: s ++ CRLF
  | Error s => x2d :: s ++ CRLF
  | Integer z => x3a :: decimal z ++ CRLF
  | BulkString b => x24 :: decimal (Z.of_nat (length b)) ++ CRLF ++ b ++ CRLF
  | NullBulk => x24 :: decimal (-1) ++ CRLF
  | Array l =>
    x2a :: decimal (Z.of_nat (length l)) ++ CRLF ++ mjoin (serialize <$> l)
  | NullArray => x2a :: decimal (-1) ++ CRLF
  end.

(** Modelled from the spec: the byte stream of a sequence of replies (no
    source file holds it). *)
Definition wire (ms : list WireMessage) : bytes := mjoin (serialize <$> ms).

(** ** The decoder *)

(** Modelled from the spec: what one decoding attempt yields (absent
    [Protocol.parse]). *)
Inductive outcome (A : Type) : Type :=
| Done (a : A) (rest : bytes)   (* one structure decoded, [rest] follows it *)
| More                          (* the buffer ran out: nothing consumed *)
| Violation                     (* protocol violation *)
| OutOfFuel.
Arguments Done {A} a rest.
Arguments More {A}.
Arguments Violation {A}.
Arguments OutOfFuel {A}.

(** Modelled from the spec: decode [n] structures in a row with [dec], the
    elements of an array (absent [Protocol.parse]). *)
Fixpoint decode_seq {A} (dec : bytes -> outcome A) (n : nat) (b : bytes)
  : outcome (list A) :=
  match n with
  | O => Done [] b
  | S k =>
    match dec b with
    | Done a r =>
      match decode_seq dec k r with
      | Done l r' => Done (a :: l) r'
      | More => More
      | Violation => Violation
      | OutOfFuel => OutOfFuel
      end
    | More => More
    | Violation => Violation
    | OutOfFuel => OutOfFuel
    end
  end.

(** Modelled from the spec: the decoding of one reply once its type byte
    and its first line are known (absent [Protocol.parse]). *)
Definition decode_body (dec : bytes -> outcome WireMessage)
    (tg : tag) (line rest : bytes) : outcome WireMessage :=
  match tg with
  | TSimple => Done (Simple line) rest
  | TError => Done (Error line) rest
  | TInteger =>
    match parse_int line with
    | Some z => Done (Integer z) rest
    | None => Violation
    end
  | TBulk =>
    match parse_int line with
    | Some z =>
      if (z <? 0)%Z then Done NullBulk rest
      else
        let n := Z.to_nat z in
        if length rest <? n + 2 then More
        else Done (BulkString (take n rest)) (drop (n + 2) rest)
    | None => Violation
    end
  | TArray =>
    match parse_int line with
    | Some z =>
      if (z <? 0)%Z then Done NullArray rest
      else
        match decode_seq dec (Z.to_nat z) rest with
        | Done l r => Done (Array l) r
        | More => More
        | Violation => Violation
        | OutOfFuel => OutOfFuel
        end
    | None => Violation
    end
  end.

(** Modelled from the spec: one message from the front of the buffer
    (absent [Protocol.parse]).  The fuel bounds the nesting of arrays;
    [decode] below supplies enough of it. *)
Fixpoint decode_fuel (fuel : nat) (buf : bytes) : outcome WireMessage :=
  match fuel with
  | O => OutOfFuel
  | S f =>
    match buf with
    | [] => More
    | t :: body =>
      match tag_of t with
      | None => Violation
      | Some tg =>
        match take_line body with
        | None => More
        | Some (line, rest) => decode_body (decode_fuel f) tg line rest
        end
      end
    end
  end.

(** Modelled from the spec: one message from the front of the buffer, with
    fuel that never runs out (absent [Protocol.parse]). *)
Definition decode (buf : bytes) : outcome WireMessage :=
  decode_fuel (S (length buf)) buf.

(** Modelled from the spec: how a drain of the buffer ends (absent
    [Protocol.parse]): at an incomplete (possibly empty) message, which stays
    buffered, or at a protocol violation. *)
Inductive drained := Rest (r : bytes) | Broken.

(** Modelled from the spec: the loop that extracts message after message
    (absent [Protocol.parse]); a message takes at least one byte, so the
    length of the buffer is fuel enough. *)
Fixpoint drain_fuel (fuel : nat) (buf : bytes) : list WireMessage * drained :=
  match fuel with
  | O => ([], Rest buf)
  | S f =>
    match decode buf with
    | Done m r => let '(ms, e) := drain_fuel f r in (m :: ms, e)
    | More => ([], Rest buf)
    | Violation | OutOfFuel => ([], Broken)
    end
  end.

(** Modelled from the spec: every complete message of the buffer, in order
    (absent [Protocol.parse]). *)
Definition drain (buf : bytes) : list WireMessage * drained :=
  drain_fuel (S (length buf)) buf.

(** Messages the serializer frames faithfully: a status line holds no
    frame terminator. *)
Fixpoint wf (m : WireMessage) : bool :=
  match m with
  | Simple s | Error s => bool_decide (take_line s = None)
  | Array l => forallb wf l
  | _ => true
  end.

(** ** The request encoder *)

(** Modelled from the spec: the text of an argument (absent
    [Protocol.encode]); a value that is neither string nor number has none. *)
Definition param_text (p : Param) : option bytes :=
  match p with
  | Str s => Some s
  | Num z => Some (decimal z)
  | Other => None
  end.

(** Modelled from the spec: one length-prefixed bulk string (absent
    [Protocol.encode]). *)
Definition bulk (s : bytes) : bytes :=
  x24 :: decimal (Z.of_nat (length s)) ++ CRLF ++ s ++ CRLF.

(** Modelled from the spec: the loop of the absent [Protocol.encode]: the
    request grows by one bulk string per argument; an argument of another
    type aborts the whole encoding. *)
Fixpoint encode_loop (request : bytes) (ps : list Param) : option bytes :=
  match ps with
  | [] => Some request
  | p :: ps' =>
    match param_text p with
    | Some s => encode_loop (request ++ bulk s) ps'
    | None => None
    end
  end.

(** Modelled from the spec: the absent [Protocol.encode]: the array header
    with the argument count, then the arguments. *)
Definition encode (ps : list Param) : option bytes :=
  encode_loop (x2a :: decimal (Z.of_nat (length ps)) ++ CRLF) ps.

(** ** The decoder object *)

(** Modelled from the spec: the state of the absent [Protocol] object
    between feed calls, the unconsumed bytes. *)
Record Decoder := { buffer : bytes }.

(** Modelled from the spec: [new Protocol()], an empty buffer. *)
Definition new : Decoder := {| buffer := [] |}.

(** Modelled from the spec: the absent [Protocol.write]: append raw bytes
    to the buffer; nothing is parsed yet. *)
Definition write (data : bytes) (d : Decoder) : Decoder :=
  {| buffer := buffer d ++ data |}.

(** Modelled from the spec: the absent [Protocol.parse]: extract the
    complete messages and keep the incomplete tail; [None] surfaces a
    protocol violation, and the stream stays where it broke. *)
Definition parse (d : Decoder) : option (list WireMessage) * Decoder :=
  match drain (buffer d) with
  | (ms, Rest r) => (Some ms, {| buffer := r |})
  | (_, Broken) => (None, d)
  end.

(** ** Auxiliary notions used to state facts about the codec *)

(** A digit is none of the bytes that structure a frame. *)
Definition plain (c : byte) : Prop :=
  c <> CR /\ c <> x2d /\ c <> x2b.

(** [extends x o o']: [o'] is what the outcome [o] becomes when the bytes
    [x] arrive behind the buffer.  A settled outcome stays, and the new
    bytes are left over; only [More] may turn into anything. *)
Definition extends {A} (x : bytes) (o o' : outcome A) : Prop :=
  match o with
  | Done a r => o' = Done a (r ++ x)
  | More => True
  | Violation => o' = Violation
  | OutOfFuel => o' = OutOfFuel
  end.

(** [decodes_with m f]: with enough fuel, the bytes of [m] decode to [m], whatever
    follows them. *)
Definition decodes_with (m : WireMessage) (f : nat) : Prop :=
  forall f' rest, f <= f' -> decode_fuel f' (serialize m ++ rest) = Done m rest.

End Protocol.

(* ===================================================================== *)
(** * What [Base] uses of its [protocol] member *)
(* ===================================================================== *)

(** [base.ts] holds a [Protocol] object and calls three of its methods.
    [None] stands for a call that throws. *)
Class Codec (Message CodecState : Type) := {
  codec_new : CodecState;                                   (* new Protocol() *)
  codec_write : bytes -> CodecState -> CodecState;          (* protocol.write *)
  codec_parse : CodecState -> option (list Message) * CodecState;
                                                            (* protocol.parse *)
  codec_encode : list Param -> option bytes;                (* protocol.encode *)
  instanceof_Error : Message -> bool;
}.

(** Modelled from the spec: the replies of the [Error] variant are the
    values for which [instanceof Error] holds (the absent [Protocol.parse]
    builds them). *)
Definition is_Error (m : Protocol.WireMessage) : bool :=
  match m with
  | Protocol.Error _ => true
  | _ => false
  end.

(** The RESP codec as the [protocol] member. *)
#[global] Instance resp : Codec Protocol.WireMessage Protocol.Decoder := {|
  codec_new := Protocol.new;
  codec_write := Protocol.write;
  codec_parse := Protocol.parse;
  codec_encode := Protocol.encode;
  instanceof_Error := is_Error;
|}.

(* ===================================================================== *)
(** * The connection: [class Base] *)
(* ===================================================================== *)

(** A listener handed to [on] is user code; it is known by a name only. *)
Definition listener := nat.

(** The text "AUTH". *)
Definition AUTH : bytes := [x41; x55; x54; x48].

Section base.
Context {Message CodecState : Type} {codec : Codec Message CodecState}.

(** Values thrown or used as rejection reasons. *)
Inductive exn :=
| JsError (message : string)      (* new Error(message) *)
| NotAFunction                    (* TypeError: calling undefined *)
| ParseError                      (* thrown inside protocol.parse *)
| EncodeError                     (* thrown inside protocol.encode *)
| SocketError (code : nat)        (* the argument of the socket's "error" *)
| Thrown (res : Message).         (* a reply used as the thrown value *)

(** The promise returned by [command]. *)
Inductive promise :=
| Pending
| Resolved (res : Message)
| Rejected (reason : exn).

(** An entry of [callbacks]: the closure [(err, res) => err ? reject(res) :
    resolve(res)] over the promise numbered [p]. *)
Inductive callback := Settle (p : nat).

Inductive argument := NoArgument | ErrorArgument (e : exn) | BoolArgument (b : bool).

(** What the connection does that is visible from outside, in order; the
    append to [callbacks] is recorded among them. *)
Inductive effect :=
| Push (p : nat)                          (* this.callbacks.push *)
| Write (data : bytes)                    (* this.socket.write *)
| End                                     (* this.socket.end *)
| Invoke (l : listener) (a : argument)    (* a registered listener runs *)
| ConsoleLog (e : exn).                   (* console.log("error:", err) *)

Record Socket := {
  tls : option (bytes * bytes);           (* key and cert, when given *)
  host : string;
  port : Z;
  timeout : option Z;
}.

Record Base := {
  id : string;
  socket : Socket;
  protocol : CodecState;
  callbacks : list callback;
  handle_connect : option listener;
  handle_timeout : option listener;
  handle_error : option listener;
  handle_close : option listener;
  promises : list promise;      (* the promises made so far, in creation order *)
  awaited : option nat;         (* the promise [auth] is suspended on *)
  trace : list effect;
}.

(** Field updates. *)
Definition with_socket (s : Socket) (b : Base) : Base :=
  {| id := id b; socket := s; protocol := protocol b;
     callbacks := callbacks b; handle_connect := handle_connect b;
     handle_timeout := handle_timeout b; handle_error := handle_error b;
     handle_close := handle_close b; promises := promises b;
     awaited := awaited b; trace := trace b |}.

Definition with_protocol (p : CodecState) (b : Base) : Base :=
  {| id := id b; socket := socket b; protocol := p;
     callbacks := callbacks b; handle_connect := handle_connect b;
     handle_timeout := handle_timeout b; handle_error := handle_error b;
     handle_close := handle_close b; promises := promises b;
     awaited := awaited b; trace := trace b |}.

Definition with_callbacks (q : list callback) (b : Base) : Base :=
  {| id := id b; socket := socket b; protocol := protocol b;
     callbacks := q; handle_connect := handle_connect b;
     handle_timeout := handle_timeout b; handle_error := handle_error b;
     handle_close := handle_close b; promises := promises b;
     awaited := awaited b; trace := trace b |}.

Definition with_handle_connect (l : option listener) (b : Base) : Base :=
  {| id := id b; socket := socket b; protocol := protocol b;
     callbacks := callbacks b; handle_connect := l;
     handle_timeout := handle_timeout b; handle_error := handle_error b;
     handle_close := handle_close b; promises := promises b;
     awaited := awaited b; trace := trace b |}.

Definition with_handle_timeout (l : option listener) (b : Base) : Base :=
  {| id := id b; socket := socket b; protocol := protocol b;
     callbacks := callbacks b; handle_connect := handle_connect b;
     handle_timeout := l; handle_error := handle_error b;
     handle_close := handle_close b; promises := promises b;
     awaited := awaited b; trace := trace b |}.

Definition with_handle_error (l : option listener) (b : Base) : Base :=
  {| id := id b; socket := socket b; protocol := protocol b;
     callbacks := callbacks b; handle_connect := handle_connect b;
     handle_timeout := handle_timeout b; handle_error := l;
     handle_close := handle_close b; promises := promises b;
     awaited := awaited b; trace := trace b |}.

Definition with_handle_close (l : option listener) (b : Base) : Base :=
  {| id := id b; socket := socket b; protocol := protocol b;
     callbacks := callbacks b; handle_connect := handle_connect b;
     handle_timeout := handle_timeout b; handle_error := handle_error b;
     handle_close := l; promises := promises b;
     awaited := awaited b; trace := trace b |}.

Definition with_promises (ps : list promise) (b : Base) : Base :=
  {| id := id b; socket := socket b; protocol := protocol b;
     callbacks := callbacks b; handle_connect := handle_connect b;
     handle_timeout := handle_timeout b; handle_error := handle_error b;
     handle_close := handle_close b; promises := ps;
     awaited := awaited b; trace := trace b |}.

Definition with_awaited (a : option nat) (b : Base) : Base :=
  {| id := id b; socket := socket b; protocol := protocol b;
     callbacks := callbacks b; handle_connect := handle_connect b;
     handle_timeout := handle_timeout b; handle_error := handle_error b;
     handle_close := handle_close b; promises := promises b;
     awaited := a; trace := trace b |}.

Definition emit (e : effect) (b : Base) : Base :=
  {| id := id b; socket := socket b; protocol := protocol b;
     callbacks := callbacks b; handle_connect := handle_connect b;
     handle_timeout := handle_timeout b; handle_error := handle_error b;
     handle_close := handle_close b; promises := promises b;
     awaited := awaited b; trace := trace b ++ [e] |}.

(** ** Promises *)

(** [resolve] and [reject] of promise [p]: a promise settles once, later
    calls are ignored. *)
Definition settle (p : nat) (v : promise) (b : Base) : Base :=
  match promises b !! p with
  | Some Pending => with_promises (<[p := v]> (promises b)) b
  | _ => b
  end.

(** Calling an entry of [callbacks] with [(err, res)]. *)
Definition call (cb : callback) (err : bool) (res : Message) (b : Base) : Base :=
  match cb with
  | Settle p => if err then settle p (Rejected (Thrown res)) b
                else settle p (Resolved res) b
  end.

(** ** [command], [close], [on] *)

(** [command(...parameters)]: the executor of the new promise pushes the
    callback, then encodes and writes.  An exception inside the executor
    rejects the promise.  The result is the promise and the new state. *)
Definition command (parameters : list Param) (b : Base) : nat * Base :=
  let p := length (promises b) in
  let b := with_promises (promises b ++ [Pending]) b in
  let b := emit (Push p) (with_callbacks (callbacks b ++ [Settle p]) b) in
  match codec_encode parameters with
  | Some data => (p, emit (Write data) b)
  | None => (p, settle p (Rejected EncodeError) b)
  end.

Definition close (b : Base) : Base := emit End b.

(** [on(event, listener)]: the state after the call and the exception it
    throws, if any. *)
Definition on (event : string) (l : listener) (b : Base) : Base * option exn :=
  if decide (event = "connect"%string) then (with_handle_connect (Some l) b, None)
  else if decide (event = "timeout"%string) then (with_handle_timeout (Some l) b, None)
  else if decide (event = "error"%string) then (with_handle_error (Some l) b, None)
  else if decide (event = "close"%string) then (with_handle_close (Some l) b, None)
  else (b, Some (JsError "event not found")).

(** ** The socket handlers installed by [init] *)

Definition on_connect (b : Base) : Base :=
  match handle_connect b with
  | Some l => emit (Invoke l NoArgument) b
  | None => b
  end.

Definition on_timeout (b : Base) : Base :=
  match handle_timeout b with
  | Some l => emit (Invoke l NoArgument) b
  | None => close b
  end.

Definition on_error (err : exn) (b : Base) : Base :=
  match handle_error b with
  | Some l => emit (Invoke l (ErrorArgument err)) b
  | None => emit (ConsoleLog err) b
  end.

Definition on_close (had_error : bool) (b : Base) : Base :=
  match handle_close b with
  | Some l => emit (Invoke l (BoolArgument had_error)) b
  | None => b
  end.

(** [parsed.forEach(message => (this.callbacks.shift() as callback)(false,
    message))]: shifting an empty queue yields [undefined], and calling it
    throws, which ends the loop. *)
Fixpoint deliver (parsed : list Message) (b : Base) : Base * option exn :=
  match parsed with
  | [] => (b, None)
  | message :: parsed' =>
    match callbacks b with
    | [] => (b, Some NotAFunction)
    | cb :: q => deliver parsed' (call cb false message (with_callbacks q b))
    end
  end.

Definition on_data (data : bytes) (b : Base) : Base * option exn :=
  let b := with_protocol (codec_write data (protocol b)) b in
  match codec_parse (protocol b) with
  | (Some parsed, st) => deliver parsed (with_protocol st b)
  | (None, st) => (with_protocol st b, Some ParseError)
  end.

(** ** [auth] and the constructor *)

Record InterfaceAuth := {
  username : option bytes;
  password : option bytes;
}.

(** The [catch] block of [auth]. *)
Definition auth_catch (error : exn) (b : Base) : Base :=
  emit End (on_error error b).

(** [auth] up to its [await]: one [command], whose promise it then waits
    for. *)
Definition auth (options : InterfaceAuth) (b : Base) : Base :=
  let await '(p, b) := with_awaited (Some p) b in
  match username options, password options with
  | Some u, Some pw => await (command [Str AUTH; Str u; Str pw] b)
  | Some u, None => await (command [Str AUTH; Str u] b)
  | None, Some pw => await (command [Str AUTH; Str pw] b)
  | None, None => auth_catch (JsError "Invalid AUTH options: {}") b
  end.

(** [auth] after its [await], once the awaited promise has settled. *)
Definition auth_resume (b : Base) : Base :=
  match awaited b with
  | None => b
  | Some p =>
    match promises b !! p with
    | Some (Resolved authResponse) =>
      if instanceof_Error authResponse
      then auth_catch (Thrown authResponse) (with_awaited None b)
      else with_awaited None b
    | Some (Rejected reason) => auth_catch reason (with_awaited None b)
    | _ => b
    end
  end.

Record Options := {
  options_host : option string;
  options_port : option Z;
  options_username : option bytes;
  options_password : option bytes;
  options_timeout : option Z;
  options_tls : option (bytes * bytes);
}.

(** [options.host || "127.0.0.1"] and [options.port || 6379]: the empty
    string and zero are falsy. *)
Definition host_or_default (h : option string) : string :=
  match h with
  | Some h => if decide (h = ""%string) then "127.0.0.1"%string else h
  | None => "127.0.0.1"%string
  end.

Definition port_or_default (p : option Z) : Z :=
  match p with
  | Some p => if decide (p = 0%Z) then 6379%Z else p
  | None => 6379%Z
  end.

(** [new Base(options)]; [uuid] is the value [uuidv4()] returns. *)
Definition constructor (uuid : string) (options : Options) : Base :=
  let b := {|
    id := uuid;
    socket := {| tls := options_tls options;
                 host := host_or_default (options_host options);
                 port := port_or_default (options_port options);
                 timeout := None |};
    protocol := codec_new;
    callbacks := [];
    handle_connect := None; handle_timeout := None;
    handle_error := None; handle_close := None;
    promises := []; awaited := None; trace := [] |} in
  let b :=
    match options_timeout options with
    | Some t => with_socket {| tls := tls (socket b); host := host (socket b);
                               port := port (socket b); timeout := Some t |} b
    | None => b
    end in
  match options_username options with
  | Some u => auth {| username := Some u; password := options_password options |} b
  | None =>
    match options_password options with
    | Some pw => auth {| username := None; password := Some pw |} b
    | None => b
    end
  end.

(** ** Runs *)

(** What can happen to a connection: calls by the owner, events of the
    socket, and the resumption of a suspended [auth]. *)
Inductive event :=
| CallCommand (parameters : list Param)
| CallOn (name : string) (l : listener)
| CallClose
| SocketConnect
| SocketTimeout
| SocketFailed (err : exn)
| SocketClosed (had_error : bool)
| SocketData (data : bytes)
| Resume.

Definition step (e : event) (b : Base) : Base * option exn :=
  match e with
  | CallCommand ps => ((command ps b).2, None)
  | CallOn name l => on name l b
  | CallClose => (close b, None)
  | SocketConnect => (on_connect b, None)
  | SocketTimeout => (on_timeout b, None)
  | SocketFailed err => (on_error err b, None)
  | SocketClosed had_error => (on_close had_error b, None)
  | SocketData data => on_data data b
  | Resume => (auth_resume b, None)
  end.

(** The state after a sequence of events and the exceptions raised on the
    way. *)
Fixpoint run (es : list event) (b : Base) : Base * list exn :=
  match es with
  | [] => (b, [])
  | e :: es' =>
    let '(b', x) := step e b in
    let '(b'', xs) := run es' b' in
    (b'', option_list x ++ xs)
  end.

(** ** Notions used to state facts about the connection *)

(** The events [on] accepts, and the slot each one names. *)
Definition listenable : list string :=
  ["connect"; "timeout"; "error"; "close"]%string.

Definition handler (name : string) (b : Base) : option listener :=
  if decide (name = "connect"%string) then handle_connect b
  else if decide (name = "timeout"%string) then handle_timeout b
  else if decide (name = "error"%string) then handle_error b
  else if decide (name = "close"%string) then handle_close b
  else None.

(** Appends to the queue and writes to the socket in a trace. *)
Fixpoint pushes (t : list effect) : nat :=
  match t with
  | [] => 0
  | Push _ :: t' => S (pushes t')
  | _ :: t' => pushes t'
  end.

Fixpoint writes (t : list effect) : nat :=
  match t with
  | [] => 0
  | Write _ :: t' => S (writes t')
  | _ :: t' => writes t'
  end.

(** At no point of the trace have more writes been made than entries
    pushed. *)
Definition registered_first (t : list effect) : Prop :=
  forall n, writes (take n t) <= pushes (take n t).

(** [quiet f]: [f] leaves the decoder, the queue and the promises alone. *)
Definition quiet (f : Base -> Base) : Prop :=
  forall b, protocol (f b) = protocol b /\ callbacks (f b) = callbacks b /\
            promises (f b) = promises b.

(** The entries of the queue are distinct and stand for promises that
    exist. *)
Definition queue_fresh (b : Base) : Prop :=
  NoDup (callbacks b) /\
  Forall (fun cb => match cb with Settle p => p < length (promises b) end)
         (callbacks b).

(** The options without the credentials. *)
Definition anonymous (o : Options) : Options :=
  {| options_host := options_host o; options_port := options_port o;
     options_username := None; options_password := None;
     options_timeout := options_timeout o; options_tls := options_tls o |}.

(** The AUTH call the credentials select, as the specification words it:
    user and password, user alone, or password alone. *)
Definition auth_shape (o : Options) : option (list Param) :=
  match options_username o, options_password o with
  | Some u, Some pw => Some [Str AUTH; Str u; Str pw]
  | Some u, None => Some [Str AUTH; Str u]
  | None, Some pw => Some [Str AUTH; Str pw]
  | None, None => None
  end.

End base.

Arguments exn Message : clear implicits.
Arguments promise Message : clear implicits.
Arguments argument Message : clear implicits.
Arguments effect Message : clear implicits.
Arguments event Message : clear implicits.
Arguments Base Message CodecState : clear implicits.

(** ** Sample values *)

Definition text (s : string) : bytes := list_byte_of_string s.

Definition no_options : Options :=
  {| options_host := None; options_port := None; options_username := None;
     options_password := None; options_timeout := None; options_tls := None |}.

(** The connection and its events over the RESP codec. *)
Abbreviation RespBase := (Base Protocol.WireMessage Protocol.Decoder).
Abbreviation RespEvent := (event Protocol.WireMessage).

(** A connection over the RESP codec with the given commands issued and
    nothing received yet. *)
Definition issued (cmds : list (list Param)) : RespBase :=
  (run (CallCommand <$> cmds) (constructor "" no_options)).1.

(** ** The exchange with a server, over the RESP codec *)

Section exchange.
Import Protocol.

(** A parameter of the declared type. *)
Definition typed (p : Param) : bool :=
  match p with
  | Other => false
  | _ => true
  end.

Definition argument_text (p : Param) : bytes :=
  match p with
  | Str s => s
  | Num z => decimal z
  | Other => []
  end.

(** The request frame as the wire format is written down: the array header
    with the argument count, then, per argument, the length header, the
    bytes and the terminator. *)
Definition request_frame (ps : list Param) : bytes :=
  x2a :: decimal (Z.of_nat (length ps)) ++ CRLF ++
  mjoin ((fun p => x24 :: decimal (Z.of_nat (length (argument_text p))) ++ CRLF
                       ++ argument_text p ++ CRLF) <$> ps).

(** Every call of [command] in the run passes parameters of the declared
    type. *)
Definition typed_calls (es : list RespEvent) : bool :=
  forallb (fun e => match e with
                    | CallCommand ps => forallb typed ps
                    | _ => true
                    end) es.

(** [served replies n sent es]: along the run [es], the server answers the
    commands in issue order, once each, with [replies].  [n] commands
    have been issued and the bytes [sent] delivered so far; at every 'data'
    event the bytes delivered so far are a prefix of the replies to the
    commands issued so far, cut anywhere; at the end every reply has been
    delivered whole. *)
Fixpoint served (replies : list WireMessage) (n : nat) (sent : bytes)
    (es : list RespEvent) : Prop :=
  match es with
  | [] => n = length replies /\ sent = wire replies
  | CallCommand _ :: es' => served replies (S n) sent es'
  | SocketData data :: es' =>
    (sent ++ data) `prefix_of` wire (take n replies) /\
    served replies n (sent ++ data) es'
  | _ :: es' => served replies n sent es'
  end.

(** [paired replies b n sent]: in the state [b], after [n] commands and
    the bytes [sent], the first [k] replies have arrived whole and settled
    the first [k] promises; the later promises are pending and queued in
    order, and the decoder holds the bytes of the cut reply. *)
Definition paired (replies : list WireMessage) (b : RespBase)
    (n : nat) (sent : bytes) : Prop :=
  exists k, k <= n /\ k <= length replies /\
    drain sent = (take k replies, Rest (buffer (protocol b))) /\
    callbacks b = Settle <$> seq k (n - k) /\
    promises b = (Resolved <$> take k replies) ++ replicate (n - k) Pending.

End exchange.

(** ** A sample exchange *)

Section samples.
Import Protocol.

Definition SET_k_v : list Param := [Str (text "SET"); Str (text "k"); Str (text "v")].
Definition GET_k : list Param := [Str (text "GET"); Str (text "k")].
Definition INCR_n : list Param := [Str (text "INCR"); Str (text "n")].

(** A connection opened with a password. *)
Definition with_password : Options :=
  {| options_host := None; options_port := None; options_username := None;
     options_password := Some (text "pw"); options_timeout := None;
     options_tls := None |}.

(** The replies to AUTH, SET and GET. *)
Definition sample_replies : list WireMessage :=
  [Simple (text "OK"); Simple (text "OK"); BulkString (text "v")].

(** SET is issued, the reply to AUTH and half of the reply to SET arrive,
    a listener is registered, GET is issued, the rest arrives in two
    pieces. *)
Definition sample_run : list RespEvent :=
  [CallCommand SET_k_v;
   SocketData (text "+OK" ++ CRLF ++ text "+O");
   CallOn "close" 7;
   CallCommand GET_k;
   SocketData (text "K" ++ CRLF ++ text "$1" ++ CRLF);
   Resume;
   SocketData (text "v" ++ CRLF)].

(** Three commands pending, then "+OK" for the first and an error reply for
    the second in one chunk. *)
Definition three_pending : RespBase :=
  issued [SET_k_v; INCR_n; GET_k].

Definition ok_then_error : bytes :=
  text "+OK" ++ CRLF ++ text "-ERR wrong number" ++ CRLF.

End samples.

(** ** What a run leaves to observe *)

Section observations.
Context {Message CodecState : Type} {codec : Codec Message CodecState}.

(** The chunks handed to [socket.write], in order. *)
Fixpoint written (t : list (effect Message)) : list bytes :=
  match t with
  | [] => []
  | Write data :: t' => data :: written t'
  | _ :: t' => written t'
  end.

(** The number of calls of [socket.end]. *)
Fixpoint ended (t : list (effect Message)) : nat :=
  match t with
  | [] => 0
  | End :: t' => S (ended t')
  | _ :: t' => ended t'
  end.

(** The parameter lists of the calls of [command] in a run. *)
Fixpoint commands_of (es : list (event Message)) : list (list Param) :=
  match es with
  | [] => []
  | CallCommand ps :: es' => ps :: commands_of es'
  | _ :: es' => commands_of es'
  end.

(** The listener the last call of [on] for [name] in the run handed over;
    [before] when the run has no such call. *)
Fixpoint last_registered (name : string) (es : list (event Message))
    (before : option listener) : option listener :=
  match es with
  | [] => before
  | CallOn n l :: es' =>
    last_registered name es' (if decide (n = name) then Some l else before)
  | _ :: es' => last_registered name es' before
  end.

(** The part of a connection that only the constructor and [on] set. *)
Definition shell (b : Base Message CodecState)
  : string * Socket * (option listener * option listener *
                       option listener * option listener) :=
  (id b, socket b,
   (handle_connect b, handle_timeout b, handle_error b, handle_close b)).

(** How the 'error' event is reported: to the listener, or to the
    console. *)
Definition reported (err : exn Message) (b : Base Message CodecState)
  : effect Message :=
  match handle_error b with
  | Some l => Invoke l (ErrorArgument err)
  | None => ConsoleLog err
  end.

(** Events that call [socket.end] in some state: [close()], a timeout and
    the resumption of [auth]. *)
Definition may_end (e : event Message) : bool :=
  match e with
  | CallClose | SocketTimeout | Resume => true
  | _ => false
  end.

(** [ascending lo q hi]: the promises of the entries of [q] are numbered
    in increasing order, from [lo] on and below [hi]. *)
Fixpoint ascending (lo : nat) (q : list callback) (hi : nat) : Prop :=
  match q with
  | [] => lo <= hi
  | Settle p :: q' => lo <= p /\ ascending (S p) q' hi
  end.

(** [recorded b]: every promise was made by a push the trace records,
    and every entry of the queue is one the trace records as pushed. *)
Definition recorded (b : Base Message CodecState) : Prop :=
  pushes (trace b) = length (promises b) /\
  forall p, Settle p ∈ callbacks b -> Push (Message := Message) p ∈ trace b.

End observations.



(* ===================================================================== *)
(** * Facts about the codec *)
(* ===================================================================== *)

Import Protocol.

Section decimal_facts.

Lemma uint_of_bytes_of_uint d : uint_of_bytes (bytes_of_uint d) = Some d.
Proof.
  induction d; simpl; try reflexivity;
    rewrite IHd; reflexivity.
Qed.

Lemma bytes_of_uint_nil d : bytes_of_uint d = [] -> d = Nil.
Proof. destruct d; simpl; congruence. Qed.

Lemma bytes_of_uint_plain d : Forall plain (bytes_of_uint d).
Proof.
  induction d; simpl; constructor; try assumption;
    unfold plain, CR; repeat split; discriminate.
Qed.

Lemma digits_value_bytes_of_uint sign d :
  d <> Nil -> digits_value sign (bytes_of_uint d) = Some (Z.of_int (sign d)).
Proof.
  intros Hd. unfold digits_value.
  destruct (bytes_of_uint d) eqn:E.
  - apply bytes_of_uint_nil in E. contradiction.
  - rewrite <- E, uint_of_bytes_of_uint. reflexivity.
Qed.

Lemma to_int_digits z :
  match Z.to_int z with Pos d | Neg d => d <> Nil end.
Proof.
  destruct z; simpl; try apply Unsigned.to_uint_nonnil. discriminate.
Qed.

Lemma parse_int_decimal z : parse_int (decimal z) = Some z.
Proof.
  unfold decimal. pose proof (to_int_digits z) as Hd.
  pose proof (DecimalZ.of_to z) as Hz.
  destruct (Z.to_int z) as [d | d].
  - unfold parse_int. destruct (bytes_of_uint d) as [| c r] eqn:E.
    + apply bytes_of_uint_nil in E. contradiction.
    + pose proof (bytes_of_uint_plain d) as Hp. rewrite E in Hp.
      apply Forall_cons_1 in Hp as [(_ & Hm & Hpl) _].
      rewrite !decide_False by assumption.
      rewrite <- E, digits_value_bytes_of_uint by assumption.
      now rewrite Hz.
  - unfold parse_int. rewrite decide_True by reflexivity.
    rewrite digits_value_bytes_of_uint by assumption. now rewrite Hz.
Qed.

Lemma decimal_no_CR z : Forall (fun c => c <> CR) (decimal z).
Proof.
  unfold decimal. destruct (Z.to_int z) as [d | d].
  - eapply Forall_impl; [apply bytes_of_uint_plain |]. intros c H; apply H.
  - constructor; [unfold CR; discriminate |].
    eapply Forall_impl; [apply bytes_of_uint_plain |]. intros c H; apply H.
Qed.

End decimal_facts.

Section frame_facts.

Lemma take_line_cons c c' r :
  take_line (c :: c' :: r) =
  if decide (c = CR /\ c' = LF) then Some ([], r)
  else match take_line (c' :: r) with
       | Some (l, r') => Some (c :: l, r')
       | None => None
       end.
Proof. reflexivity. Qed.

Lemma take_line_split b l r :
  take_line b = Some (l, r) -> b = l ++ CRLF ++ r.
Proof.
  revert l r. induction b as [| c t IH]; intros l r; [discriminate |].
  destruct t as [| c' t']; [discriminate |]. rewrite take_line_cons.
  destruct (decide (c = CR /\ c' = LF)) as [[-> ->] | _].
  - intros [= <- <-]. reflexivity.
  - destruct (take_line (c' :: t')) as [[l' r'] |]; [| discriminate].
    intros [= <- <-]. rewrite (IH l' r') by reflexivity. reflexivity.
Qed.

Lemma take_line_length b l r :
  take_line b = Some (l, r) -> length b = length l + 2 + length r.
Proof.
  intros H. apply take_line_split in H. subst b.
  rewrite !length_app. simpl. lia.
Qed.

(** A terminator found once is found again, at the same place, whatever
    arrives behind it. *)
Lemma take_line_app b x l r :
  take_line b = Some (l, r) -> take_line (b ++ x) = Some (l, r ++ x).
Proof.
  revert l r. induction b as [| c t IH]; intros l r; [discriminate |].
  destruct t as [| c' t']; [discriminate |].
  rewrite <- !app_comm_cons, !take_line_cons. rewrite app_comm_cons.
  destruct (decide (c = CR /\ c' = LF)) as [_ | _].
  - intros [= <- <-]. reflexivity.
  - destruct (take_line (c' :: t')) as [[l' r'] |] eqn:E; [| discriminate].
    intros [= <- <-]. rewrite (IH l' r') by reflexivity. reflexivity.
Qed.

Lemma take_line_frame l rest :
  take_line l = None -> take_line (l ++ CRLF ++ rest) = Some (l, rest).
Proof.
  induction l as [| c t IH].
  - intros _. change (take_line (CR :: LF :: rest) = Some ([], rest)).
    rewrite take_line_cons, decide_True by done. reflexivity.
  - destruct t as [| c' t'].
    + intros _. change (take_line (c :: CR :: LF :: rest) = Some ([c], rest)).
      rewrite take_line_cons, decide_False by (intros [_ H]; inversion H).
      rewrite take_line_cons, decide_True by done. reflexivity.
    + rewrite <- !app_comm_cons, !take_line_cons. rewrite app_comm_cons.
      destruct (decide (c = CR /\ c' = LF)); [discriminate |].
      destruct (take_line (c' :: t')) as [[l' r'] |] eqn:E; [discriminate |].
      intros _. rewrite IH by reflexivity. reflexivity.
Qed.

Lemma take_line_no_CR l : Forall (fun c => c <> CR) l -> take_line l = None.
Proof.
  induction 1 as [| c t Hc Ht IH]; [reflexivity |].
  destruct t as [| c' t']; [reflexivity |].
  rewrite take_line_cons, decide_False by (intros [H _]; contradiction).
  rewrite IH. reflexivity.
Qed.

Lemma take_line_decimal z rest :
  take_line (decimal z ++ CRLF ++ rest) = Some (decimal z, rest).
Proof. apply take_line_frame, take_line_no_CR, decimal_no_CR. Qed.

End frame_facts.

Section decoder_facts.

Ltac case_outcome o :=
  let E := fresh "E" in destruct o eqn:E; simpl in *; try done.

(** *** Bytes arriving later do not change what was decoded *)

Lemma decode_seq_app {A} (dec : bytes -> outcome A) x :
  (forall b, extends x (dec b) (dec (b ++ x))) ->
  forall n b, extends x (decode_seq dec n b) (decode_seq dec n (b ++ x)).
Proof.
  intros Hdec. induction n as [| k IH]; intros b; simpl; [reflexivity |].
  pose proof (Hdec b) as Hb. destruct (dec b) as [a r | | |]; simpl in *;
    try done; rewrite Hb; try reflexivity.
  pose proof (IH r) as Hr.
  destruct (decode_seq dec k r) as [l r' | | |]; simpl in *;
    try done; rewrite Hr; reflexivity.
Qed.

Lemma decode_body_app dec x tg line rest :
  (forall b, extends x (dec b) (dec (b ++ x))) ->
  extends x (decode_body dec tg line rest)
            (decode_body dec tg line (rest ++ x)).
Proof.
  intros Hdec. destruct tg; simpl; try reflexivity.
  - destruct (parse_int line); reflexivity.
  - destruct (parse_int line) as [z |]; [| reflexivity].
    destruct (z <? 0)%Z; [reflexivity |].
    destruct (Nat.ltb_spec (length rest) (Z.to_nat z + 2)) as [Hlt | Hge];
      [exact I |]. simpl.
    destruct (Nat.ltb_spec (length (rest ++ x)) (Z.to_nat z + 2)) as [Hlt' | _].
    { rewrite length_app in Hlt'. lia. }
    rewrite take_app_le, drop_app_le by lia. reflexivity.
  - destruct (parse_int line) as [z |]; [| reflexivity].
    destruct (z <? 0)%Z; [reflexivity |].
    pose proof (decode_seq_app dec x Hdec (Z.to_nat z) rest) as Hs.
    destruct (decode_seq dec (Z.to_nat z) rest) as [l r | | |]; simpl in *;
      try done; rewrite Hs; reflexivity.
Qed.

Lemma decode_fuel_app x f :
  forall b, extends x (decode_fuel f b) (decode_fuel f (b ++ x)).
Proof.
  induction f as [| f IH]; intros b; simpl; [reflexivity |].
  destruct b as [| t body]; simpl; [exact I |].
  destruct (tag_of t) as [tg |]; [| reflexivity].
  destruct (take_line body) as [[line rest] |] eqn:E; [| exact I].
  rewrite (take_line_app _ x _ _ E). apply decode_body_app, IH.
Qed.

(** *** A decoded message consumes at least one byte *)

Lemma decode_seq_shrink {A} (dec : bytes -> outcome A) :
  (forall b a r, dec b = Done a r -> length r < length b) ->
  forall n b l r, decode_seq dec n b = Done l r -> length r <= length b.
Proof.
  intros Hdec. induction n as [| k IH]; intros b l r; simpl.
  - intros [= <- <-]. lia.
  - destruct (dec b) as [a r1 | | |] eqn:E1; try discriminate.
    destruct (decode_seq dec k r1) as [l' r2 | | |] eqn:E2; try discriminate.
    intros [= <- <-]. apply Hdec in E1. apply IH in E2. lia.
Qed.

Lemma decode_body_shrink dec tg line rest m r :
  (forall b a r, dec b = Done a r -> length r < length b) ->
  decode_body dec tg line rest = Done m r -> length r <= length rest.
Proof.
  intros Hdec. destruct tg; simpl.
  - intros [= <- <-]. lia.
  - intros [= <- <-]. lia.
  - destruct (parse_int line); [| discriminate]. intros [= <- <-]. lia.
  - destruct (parse_int line) as [z |]; [| discriminate].
    destruct (z <? 0)%Z; [intros [= <- <-]; lia |].
    destruct (length rest <? Z.to_nat z + 2); [discriminate |].
    intros [= <- <-]. rewrite length_drop. lia.
  - destruct (parse_int line) as [z |]; [| discriminate].
    destruct (z <? 0)%Z; [intros [= <- <-]; lia |].
    destruct (decode_seq dec (Z.to_nat z) rest) as [l r' | | |] eqn:E;
      try discriminate.
    intros [= <- <-]. eapply decode_seq_shrink; eassumption.
Qed.

Lemma decode_fuel_shrink f :
  forall b m r, decode_fuel f b = Done m r -> length r < length b.
Proof.
  induction f as [| f IH]; intros b m r; simpl; [discriminate |].
  destruct b as [| t body]; [discriminate |].
  destruct (tag_of t) as [tg |]; [| discriminate].
  destruct (take_line body) as [[line rest] |] eqn:E; [| discriminate].
  intros H. apply decode_body_shrink in H; [| exact IH].
  apply take_line_length in E. simpl. lia.
Qed.

(** *** Fuel *)

Lemma decode_seq_fueled {A} (dec : bytes -> outcome A) k :
  (forall b a r, dec b = Done a r -> length r < length b) ->
  (forall b, length b <= k -> dec b <> OutOfFuel) ->
  forall n b, length b <= k -> decode_seq dec n b <> OutOfFuel.
Proof.
  intros Hs Hdec. induction n as [| n IH]; intros b Hb; simpl; [discriminate |].
  pose proof (Hdec b Hb) as Hne.
  destruct (dec b) as [a r | | |] eqn:E1; try done.
  apply Hs in E1. specialize (IH r ltac:(lia)).
  destruct (decode_seq dec n r); done.
Qed.

Lemma decode_fuel_fueled f :
  forall b, length b < f -> decode_fuel f b <> OutOfFuel.
Proof.
  induction f as [| f IH]; intros b Hb; [lia |]. simpl.
  destruct b as [| t body]; [discriminate |].
  destruct (tag_of t) as [tg |]; [| discriminate].
  destruct (take_line body) as [[line rest] |] eqn:E; [| discriminate].
  apply take_line_length in E. simpl in Hb.
  destruct tg; simpl; try discriminate.
  - destruct (parse_int line); discriminate.
  - destruct (parse_int line) as [z |]; [| discriminate].
    destruct (z <? 0)%Z; [discriminate |].
    destruct (length rest <? Z.to_nat z + 2); discriminate.
  - destruct (parse_int line) as [z |]; [| discriminate].
    destruct (z <? 0)%Z; [discriminate |].
    pose proof (decode_seq_fueled (decode_fuel f) (length rest)
                  (decode_fuel_shrink f)) as Hseq.
    specialize (Hseq ltac:(intros b' Hb'; apply IH; lia) (Z.to_nat z) rest
                  ltac:(lia)).
    destruct (decode_seq (decode_fuel f) (Z.to_nat z) rest); done.
Qed.

Lemma decode_seq_mono {A} (dec dec' : bytes -> outcome A) :
  (forall b, dec b <> OutOfFuel -> dec' b = dec b) ->
  forall n b, decode_seq dec n b <> OutOfFuel ->
              decode_seq dec' n b = decode_seq dec n b.
Proof.
  intros Hdec. induction n as [| n IH]; intros b; simpl; [reflexivity |].
  destruct (dec b) as [a r | | |] eqn:E1; intros Hne;
    try (rewrite Hdec, E1 by (rewrite E1; discriminate); reflexivity);
    [| done].
  rewrite Hdec, E1 by (rewrite E1; discriminate).
  rewrite IH; [reflexivity |].
  destruct (decode_seq dec n r); done.
Qed.

Lemma decode_fuel_S f :
  forall b, decode_fuel f b <> OutOfFuel ->
            decode_fuel (S f) b = decode_fuel f b.
Proof.
  induction f as [| f IH]; intros b; [simpl; done |].
  change (decode_fuel (S (S f)) b) with
    (match b with
     | [] => More
     | t :: body =>
       match tag_of t with
       | None => Violation
       | Some tg =>
         match take_line body with
         | None => More
         | Some (line, rest) => decode_body (decode_fuel (S f)) tg line rest
         end
       end
     end).
  simpl. destruct b as [| t body]; [reflexivity |].
  destruct (tag_of t) as [tg |]; [| reflexivity].
  destruct (take_line body) as [[line rest] |]; [| reflexivity].
  destruct tg; simpl; try reflexivity.
  destruct (parse_int line) as [z |]; [| reflexivity].
  destruct (z <? 0)%Z; [reflexivity |].
  intros Hne.
  rewrite (decode_seq_mono (decode_fuel f) (decode_fuel (S f)) IH);
    [reflexivity |].
  destruct (decode_seq (decode_fuel f) (Z.to_nat z) rest); done.
Qed.

Lemma decode_fuel_mono f f' b :
  f <= f' -> decode_fuel f b <> OutOfFuel -> decode_fuel f' b = decode_fuel f b.
Proof.
  induction 1 as [| f' Hle IH]; [reflexivity |].
  intros Hne. rewrite decode_fuel_S; [auto |]. rewrite IH; assumption.
Qed.

(** Whatever some amount of fuel decodes, [decode] decodes. *)
Lemma decode_fuel_decode f b :
  decode_fuel f b <> OutOfFuel -> decode b = decode_fuel f b.
Proof.
  intros Hne. unfold decode.
  destruct (Nat.le_gt_cases f (S (length b))) as [Hle | Hgt].
  - apply decode_fuel_mono; assumption.
  - symmetry. apply decode_fuel_mono; [lia |].
    apply decode_fuel_fueled. lia.
Qed.

Lemma decode_total b : decode b <> OutOfFuel.
Proof. apply decode_fuel_fueled. lia. Qed.

Lemma decode_shrink b m r : decode b = Done m r -> length r < length b.
Proof. apply decode_fuel_shrink. Qed.

Lemma decode_app b x : extends x (decode b) (decode (b ++ x)).
Proof.
  pose proof (decode_fuel_app x (S (length b)) b) as H.
  pose proof (decode_total b) as Ht. unfold decode in Ht.
  unfold decode at 1.
  destruct (decode_fuel (S (length b)) b) as [m r | | |]; cbn [extends] in *;
    try done; rewrite <- H; apply decode_fuel_decode; rewrite H; discriminate.
Qed.

Lemma decode_done_app b x m r :
  decode b = Done m r -> decode (b ++ x) = Done m (r ++ x).
Proof. intros E. pose proof (decode_app b x) as H. now rewrite E in H. Qed.

Lemma decode_violation_app b x :
  decode b = Violation -> decode (b ++ x) = Violation.
Proof. intros E. pose proof (decode_app b x) as H. now rewrite E in H. Qed.

End decoder_facts.

Section roundtrip.

(** Induction on messages that reaches inside arrays. *)
Lemma WireMessage_nested_ind (P : WireMessage -> Prop) :
  (forall s, P (Simple s)) ->
  (forall s, P (Error s)) ->
  (forall z, P (Integer z)) ->
  (forall b, P (BulkString b)) ->
  P NullBulk ->
  (forall l, Forall P l -> P (Array l)) ->
  P NullArray ->
  forall m, P m.
Proof.
  intros HS HE HI HB HNB HA HNA. fix IH 1. intros [s | s | z | b | | l |].
  - apply HS.
  - apply HE.
  - apply HI.
  - apply HB.
  - apply HNB.
  - apply HA. induction l as [| m l IHl]; constructor; [apply IH | exact IHl].
  - apply HNA.
Qed.

Lemma decode_fuel_frame f t tg line rest buf :
  tag_of t = Some tg -> take_line line = None ->
  buf = t :: line ++ CRLF ++ rest ->
  decode_fuel (S f) buf = decode_body (decode_fuel f) tg line rest.
Proof.
  intros Ht Hl ->. cbn [decode_fuel]. rewrite Ht.
  rewrite take_line_frame by assumption. reflexivity.
Qed.

Ltac frame_eq :=
  cbn [serialize]; rewrite <- ?app_comm_cons, <- ?app_assoc; reflexivity.

Lemma decimal_line z : take_line (decimal z) = None.
Proof. apply take_line_no_CR, decimal_no_CR. Qed.

Lemma wire_cons m l : wire (m :: l) = serialize m ++ wire l.
Proof. reflexivity. Qed.

Lemma wire_app l1 l2 : wire (l1 ++ l2) = wire l1 ++ wire l2.
Proof.
  induction l1 as [| m l1 IH]; [reflexivity |].
  rewrite <- app_comm_cons, !wire_cons, IH, app_assoc. reflexivity.
Qed.

Lemma decode_seq_wire l f :
  Forall (fun m => decodes_with m f) l ->
  forall f' rest, f <= f' ->
    decode_seq (decode_fuel f') (length l) (wire l ++ rest) = Done l rest.
Proof.
  induction 1 as [| m l Hm Hl IH]; intros f' rest Hf; [reflexivity |].
  rewrite wire_cons. cbn [length decode_seq].
  rewrite <- app_assoc, (Hm f' _ Hf), (IH f' rest Hf). reflexivity.
Qed.

Lemma decodes_with_mono m f f' : f <= f' -> decodes_with m f -> decodes_with m f'.
Proof. intros Hle H g rest Hg. apply H. lia. Qed.

Lemma decodes_with_all l :
  Forall (fun m => exists f, decodes_with m f) l ->
  exists f, Forall (fun m => decodes_with m f) l.
Proof.
  induction 1 as [| m l [f Hf] _ [g Hg]]; [exists 0; constructor |].
  exists (f `max` g). constructor.
  - eapply decodes_with_mono; [| exact Hf]. lia.
  - eapply Forall_impl; [exact Hg |]. intros m' Hm'.
    eapply decodes_with_mono; [| exact Hm']. lia.
Qed.

Lemma decode_fuel_serialize m :
  wf m = true -> exists f, decodes_with m f.
Proof.
  induction m as [s | s | z | b | | l IH |] using WireMessage_nested_ind;
    cbn [wf]; intros Hwf.
  - apply bool_decide_eq_true in Hwf. exists 1. intros [| f'] rest Hf; [lia |].
    rewrite (decode_fuel_frame f' x2b TSimple s rest); [done .. | frame_eq].
  - apply bool_decide_eq_true in Hwf. exists 1. intros [| f'] rest Hf; [lia |].
    rewrite (decode_fuel_frame f' x2d TError s rest); [done .. | frame_eq].
  - exists 1. intros [| f'] rest Hf; [lia |].
    rewrite (decode_fuel_frame f' x3a TInteger (decimal z) rest);
      [| done | apply decimal_line | frame_eq].
    cbn [decode_body]. rewrite parse_int_decimal. reflexivity.
  - exists 1. intros [| f'] rest Hf; [lia |].
    rewrite (decode_fuel_frame f' x24 TBulk (decimal (Z.of_nat (length b)))
               (b ++ CRLF ++ rest));
      [| done | apply decimal_line | frame_eq].
    cbn [decode_body]. rewrite parse_int_decimal.
    destruct (Z.ltb_spec (Z.of_nat (length b)) 0) as [Hneg | _]; [lia |].
    rewrite Nat2Z.id. cbn zeta.
    destruct (Nat.ltb_spec (length (b ++ CRLF ++ rest)) (length b + 2))
      as [Hlt | _].
    { rewrite !length_app in Hlt. simpl in Hlt. lia. }
    rewrite take_app_length.
    rewrite (app_assoc b CRLF rest).
    replace (length b + 2) with (length (b ++ CRLF))
      by (rewrite length_app; reflexivity).
    rewrite drop_app_length. reflexivity.
  - exists 1. intros [| f'] rest Hf; [lia |].
    rewrite (decode_fuel_frame f' x24 TBulk (decimal (-1)) rest);
      [| done | apply decimal_line | frame_eq].
    cbn [decode_body]. rewrite parse_int_decimal. reflexivity.
  - assert (Hall : Forall (fun m => exists f, decodes_with m f) l).
    { rewrite forallb_forall in Hwf. rewrite Forall_forall in IH |- *.
      intros m Hm. apply IH; [assumption |].
      apply Hwf, list_elem_of_In, Hm. }
    apply decodes_with_all in Hall as [f Hf].
    exists (S f). intros [| f'] rest Hle; [lia |].
    rewrite (decode_fuel_frame f' x2a TArray (decimal (Z.of_nat (length l)))
               (wire l ++ rest));
      [| done | apply decimal_line | unfold wire; frame_eq].
    cbn [decode_body]. rewrite parse_int_decimal.
    destruct (Z.ltb_spec (Z.of_nat (length l)) 0) as [Hneg | _]; [lia |].
    rewrite Nat2Z.id.
    rewrite (decode_seq_wire l f Hf f' rest) by lia. reflexivity.
  - exists 1. intros [| f'] rest Hf; [lia |].
    rewrite (decode_fuel_frame f' x2a TArray (decimal (-1)) rest);
      [| done | apply decimal_line | frame_eq].
    cbn [decode_body]. rewrite parse_int_decimal. reflexivity.
Qed.

(** The decoder inverts the serializer, whatever follows the message. *)
Lemma decode_serialize m rest :
  wf m = true -> decode (serialize m ++ rest) = Done m rest.
Proof.
  intros Hwf. destruct (decode_fuel_serialize m Hwf) as [f Hf].
  rewrite (decode_fuel_decode f); rewrite (Hf f rest) by lia; done.
Qed.

(** A message that has not arrived whole yields nothing. *)
Lemma decode_partial m p q :
  wf m = true -> serialize m = p ++ q -> q <> [] -> decode p = More.
Proof.
  intros Hwf Hpq Hq. pose proof (decode_app p q) as H.
  pose proof (decode_serialize m [] Hwf) as Hm.
  rewrite app_nil_r, Hpq in Hm. rewrite Hm in H.
  pose proof (decode_total p) as Ht.
  destruct (decode p) as [a r | | |]; cbn [extends] in H; try done.
  injection H as _ Hr. symmetry in Hr. apply app_eq_nil in Hr as [_ ->]. done.
Qed.

End roundtrip.

Section drain_facts.

Lemma drain_fuel_irrelevant f :
  forall f' b, length b < f -> length b < f' -> drain_fuel f b = drain_fuel f' b.
Proof.
  induction f as [| f IH]; intros f' b Hf Hf'; [lia |].
  destruct f' as [| f']; [lia |]. cbn [drain_fuel].
  destruct (decode b) as [m r | | |] eqn:E; try reflexivity.
  apply decode_shrink in E. rewrite (IH f' r) by lia. reflexivity.
Qed.

(** The loop of [drain], one message at a time. *)
Lemma drain_eq b :
  drain b =
  match decode b with
  | Done m r => let '(ms, e) := drain r in (m :: ms, e)
  | More => ([], Rest b)
  | Violation | OutOfFuel => ([], Broken)
  end.
Proof.
  unfold drain at 1. cbn [drain_fuel].
  destruct (decode b) as [m r | | |] eqn:E; try reflexivity.
  apply decode_shrink in E. unfold drain.
  rewrite (drain_fuel_irrelevant (length b) (S (length r))) by lia.
  reflexivity.
Qed.

(** Chunking is invisible: draining, appending and draining again gives
    the messages of the whole stream, for any bytes at all. *)
Lemma drain_app ms :
  forall a r x, drain a = (ms, Rest r) ->
    drain (a ++ x) = let '(ms', e) := drain (r ++ x) in (ms ++ ms', e).
Proof.
  induction ms as [| m ms IH]; intros a r x; rewrite (drain_eq a).
  - destruct (decode a) as [m' r' | | |] eqn:E; try discriminate.
    + destruct (drain r'); discriminate.
    + intros [= <-]. destruct (drain (a ++ x)); reflexivity.
  - destruct (decode a) as [m' r' | | |] eqn:E; try discriminate.
    destruct (drain r') as [ms' e'] eqn:E'. intros [= <- <- ->].
    rewrite (drain_eq (a ++ x)), (decode_done_app _ x _ _ E).
    rewrite (IH r' r x E'). destruct (drain (r ++ x)); reflexivity.
Qed.

Lemma drain_broken_app ms :
  forall a x, drain a = (ms, Broken) -> drain (a ++ x) = (ms, Broken).
Proof.
  induction ms as [| m ms IH]; intros a x; rewrite (drain_eq a).
  - destruct (decode a) as [m' r' | | |] eqn:E; try discriminate.
    + destruct (drain r'); discriminate.
    + intros _. rewrite drain_eq, (decode_violation_app _ _ E). reflexivity.
    + now destruct (decode_total a).
  - destruct (decode a) as [m' r' | | |] eqn:E; try discriminate.
    destruct (drain r') as [ms' e'] eqn:E'. intros [= <- <- ->].
    rewrite (drain_eq (a ++ x)), (decode_done_app _ x _ _ E).
    rewrite (IH r' x E'). reflexivity.
Qed.

(** What a drain returns and what it leaves is the buffer, cut at a
    message boundary. *)
Lemma drain_wire ms p :
  Forall (fun m => wf m = true) ms -> decode p = More ->
  drain (wire ms ++ p) = (ms, Rest p).
Proof.
  intros Hwf Hp. induction Hwf as [| m ms Hm _ IH].
  - change (wire [] ++ p) with p. rewrite drain_eq, Hp. reflexivity.
  - rewrite wire_cons, <- app_assoc, drain_eq.
    rewrite decode_serialize by assumption. rewrite IH. reflexivity.
Qed.

Lemma decode_nil : decode [] = More.
Proof. reflexivity. Qed.

Lemma drain_wire_all ms :
  Forall (fun m => wf m = true) ms -> drain (wire ms) = (ms, Rest []).
Proof.
  intros Hwf. rewrite <- (app_nil_r (wire ms)).
  apply drain_wire; [assumption | apply decode_nil].
Qed.

(** A stream cut anywhere: the complete replies come out, the cut one
    stays buffered, byte for byte. *)
Lemma drain_prefix ms :
  Forall (fun m => wf m = true) ms ->
  forall d, d `prefix_of` wire ms ->
  exists k r, k <= length ms /\ drain d = (take k ms, Rest r) /\
              d = wire (take k ms) ++ r /\ decode r = More.
Proof.
  induction 1 as [| m ms Hm _ IH]; intros d Hd.
  - apply prefix_nil_inv in Hd as ->. exists 0, []. split; [done |]. split; [reflexivity |]. split; reflexivity.
  - rewrite wire_cons in Hd.
    destruct (Nat.le_gt_cases (length (serialize m)) (length d)) as [Hle | Hlt].
    + destruct Hd as [q Hq].
      assert (Hd : d = serialize m ++ drop (length (serialize m)) d).
      { rewrite <- (take_drop (length (serialize m)) d) at 1. f_equal.
        apply (f_equal (take (length (serialize m)))) in Hq.
        rewrite take_app_length, take_app_le in Hq by lia. done. }
      set (d' := drop (length (serialize m)) d) in *.
      assert (Hd' : d' `prefix_of` wire ms).
      { exists q. rewrite Hd, <- app_assoc in Hq.
        apply app_inv_head in Hq. exact Hq. }
      destruct (IH d' Hd') as (k & r & Hk & Hdr & Heq & Hr).
      exists (S k), r. cbn [take length]. rewrite wire_cons.
      split; [lia |]. split; [| split; [| exact Hr]].
      * rewrite Hd, drain_eq, decode_serialize, Hdr by assumption. reflexivity.
      * rewrite <- app_assoc, <- Heq. exact Hd.
    + destruct Hd as [q Hq].
      assert (Hm' : decode d = More).
      { apply (decode_partial m d (take (length (serialize m) - length d) q));
          [assumption | |].
        - apply (f_equal (take (length (serialize m)))) in Hq.
          rewrite take_app_length, take_app_ge in Hq by lia. exact Hq.
        - intros Hnil. apply (f_equal length) in Hq, Hnil.
          rewrite !length_app in Hq. rewrite length_take in Hnil.
          simpl in Hnil. lia. }
      exists 0, d. split; [lia |]. split; [| split; [reflexivity | exact Hm']].
      rewrite drain_eq, Hm'. reflexivity.
Qed.

End drain_facts.

(* ===================================================================== *)
(** * Facts about the connection *)
(* ===================================================================== *)

Section base_facts.
Context {Message CodecState : Type} {codec : Codec Message CodecState}.

Implicit Types (b : Base Message CodecState) (p : nat) (q : list callback).
Implicit Types (t s w : list (effect Message)).

Local Abbreviation still := (quiet (Message := Message) (CodecState := CodecState)).

(** ** Promises settle once *)

Lemma settle_promises p v b :
  promises (settle p v b) =
  match promises b !! p with
  | Some Pending => <[p := v]> (promises b)
  | _ => promises b
  end.
Proof.
  unfold settle. destruct (promises b !! p) as [[| |] |]; reflexivity.
Qed.

Lemma settle_callbacks p v b : callbacks (settle p v b) = callbacks b.
Proof.
  unfold settle. destruct (promises b !! p) as [[| |] |]; reflexivity.
Qed.

Lemma settle_protocol p v b : protocol (settle p v b) = protocol b.
Proof.
  unfold settle. destruct (promises b !! p) as [[| |] |]; reflexivity.
Qed.

Lemma settle_trace p v b : trace (settle p v b) = trace b.
Proof.
  unfold settle. destruct (promises b !! p) as [[| |] |]; reflexivity.
Qed.

Lemma settle_pending p v b :
  promises b !! p = Some Pending -> promises (settle p v b) !! p = Some v.
Proof.
  intros H. rewrite settle_promises, H.
  apply list_lookup_insert_eq. eapply lookup_lt_Some, H.
Qed.

Lemma settle_other p p' v b :
  p <> p' -> promises (settle p v b) !! p' = promises b !! p'.
Proof.
  intros H. rewrite settle_promises.
  destruct (promises b !! p) as [[| |] |]; try reflexivity.
  apply list_lookup_insert_ne, H.
Qed.

Lemma settle_settled p p' v v' b :
  promises b !! p' = Some v' -> v' <> Pending ->
  promises (settle p v b) !! p' = Some v'.
Proof.
  intros H Hv. destruct (decide (p = p')) as [-> | Hne].
  - rewrite settle_promises, H. destruct v'; done.
  - rewrite settle_other; done.
Qed.

(** ** Delivery *)

Lemma deliver_cons m ms cb q b :
  callbacks b = cb :: q ->
  deliver (m :: ms) b = deliver ms (call cb false m (with_callbacks q b)).
Proof. intros H. cbn [deliver]. rewrite H. reflexivity. Qed.

Lemma call_callbacks cb m q b :
  callbacks (call cb false m (with_callbacks q b)) = q.
Proof. destruct cb as [p]. cbn [call]. rewrite settle_callbacks. reflexivity. Qed.

Lemma call_promises p m q b :
  promises (call (Settle p) false m (with_callbacks q b)) =
  promises (settle p (Resolved m) b).
Proof.
  cbn [call]. unfold settle.
  change (promises (with_callbacks q b)) with (promises b).
  destruct (promises b !! p) as [[| |] |]; reflexivity.
Qed.

Lemma call_protocol cb m q b :
  protocol (call cb false m (with_callbacks q b)) = protocol b.
Proof. destruct cb as [p]. cbn [call]. rewrite settle_protocol. reflexivity. Qed.

Lemma call_trace cb m q b :
  trace (call cb false m (with_callbacks q b)) = trace b.
Proof. destruct cb as [p]. cbn [call]. rewrite settle_trace. reflexivity. Qed.

(** Delivery touches the queue and the promises only. *)
Lemma deliver_protocol ms :
  forall b, protocol (deliver ms b).1 = protocol b.
Proof.
  induction ms as [| m ms IH]; intros b; cbn [deliver]; [reflexivity |].
  destruct (callbacks b) as [| cb q]; [reflexivity |].
  rewrite IH. apply call_protocol.
Qed.

Lemma deliver_trace ms :
  forall b, trace (deliver ms b).1 = trace b.
Proof.
  induction ms as [| m ms IH]; intros b; cbn [deliver]; [reflexivity |].
  destruct (callbacks b) as [| cb q]; [reflexivity |].
  rewrite IH. apply call_trace.
Qed.

(** With enough pending entries every message finds a callback; with too
    few, the loop stops at the call of [undefined], the queue empty. *)
Lemma deliver_enough ms :
  forall b, length ms <= length (callbacks b) ->
    (deliver ms b).2 = None /\
    callbacks (deliver ms b).1 = drop (length ms) (callbacks b).
Proof.
  induction ms as [| m ms IH]; intros b Hlen; cbn [deliver]; [done |].
  destruct (callbacks b) as [| cb q] eqn:E; [simpl in Hlen; lia |].
  simpl in Hlen. destruct (IH (call cb false m (with_callbacks q b))) as [H1 H2].
  - rewrite call_callbacks. lia.
  - rewrite call_callbacks in H2. split; assumption.
Qed.

Lemma deliver_short ms :
  forall b, length (callbacks b) < length ms ->
    (deliver ms b).2 = Some NotAFunction /\ callbacks (deliver ms b).1 = [].
Proof.
  induction ms as [| m ms IH]; intros b Hlen; cbn [deliver];
    [simpl in Hlen; lia |].
  destruct (callbacks b) as [| cb q] eqn:E; [done |].
  simpl in Hlen. apply IH. rewrite call_callbacks. lia.
Qed.

Lemma deliver_settled ms p v :
  v <> Pending ->
  forall b, promises b !! p = Some v -> promises (deliver ms b).1 !! p = Some v.
Proof.
  intros Hv. induction ms as [| m ms IH]; intros b H; cbn [deliver]; [done |].
  destruct (callbacks b) as [| [p'] q]; [done |].
  apply IH. rewrite call_promises. eapply settle_settled; eassumption.
Qed.

(** Each message goes to the entry at its position of the queue, as the
    resolved value; promises outside the delivered part are untouched. *)
Lemma deliver_positions ms :
  forall b, NoDup (callbacks b) ->
    (forall i p m, callbacks b !! i = Some (Settle p) -> ms !! i = Some m ->
       promises b !! p = Some Pending ->
       promises (deliver ms b).1 !! p = Some (Resolved m)) /\
    (forall p, (forall i, i < length ms -> callbacks b !! i <> Some (Settle p)) ->
       promises (deliver ms b).1 !! p = promises b !! p).
Proof.
  induction ms as [| m ms IH]; intros b Hnd.
  { split; [intros i p m _ H; destruct i; discriminate H | reflexivity]. }
  cbn [deliver]. destruct (callbacks b) as [| [p0] q] eqn:E.
  { split; [intros i p m' H; destruct i; discriminate H | reflexivity]. }
  apply NoDup_cons in Hnd as [Hp0 Hq].
  set (b1 := call (Settle p0) false m (with_callbacks q b)).
  assert (Hq1 : callbacks b1 = q) by apply call_callbacks.
  assert (Hp1 : promises b1 = promises (settle p0 (Resolved m) b))
    by apply call_promises.
  destruct (IH b1) as [IH1 IH2]; [rewrite Hq1; exact Hq |].
  split.
  - intros [| i] p m' Hcb Hm Hpend; simpl in Hcb, Hm.
    + injection Hcb as ->. injection Hm as ->.
      apply deliver_settled; [discriminate |].
      rewrite Hp1. apply settle_pending, Hpend.
    + apply (IH1 i); [rewrite Hq1; exact Hcb | exact Hm |].
      rewrite Hp1, settle_other; [exact Hpend |].
      intros ->. apply Hp0. eapply list_elem_of_lookup_2, Hcb.
  - intros p Hout. rewrite IH2.
    + rewrite Hp1. apply settle_other. intros ->.
      apply (Hout 0); [simpl; lia | reflexivity].
    + intros i Hi. rewrite Hq1. apply (Hout (S i)). simpl. lia.
Qed.

(** A queue of consecutive fresh promises is answered front to back. *)
Lemma deliver_queue ms :
  forall b k n settled,
    callbacks b = Settle <$> seq k n ->
    promises b = settled ++ replicate n Pending ->
    length settled = k ->
    length ms <= n ->
    (deliver ms b).2 = None /\
    callbacks (deliver ms b).1 = Settle <$> seq (k + length ms) (n - length ms) /\
    promises (deliver ms b).1 =
      settled ++ (Resolved <$> ms) ++ replicate (n - length ms) Pending.
Proof.
  induction ms as [| m ms IH]; intros b k n settled Hq Hp Hk Hn.
  { cbn [deliver length fmap list_fmap app fst snd].
    rewrite Nat.add_0_r, Nat.sub_0_r. done. }
  destruct n as [| n]; [simpl in Hn; lia |]. simpl in Hn.
  cbn [seq fmap list_fmap] in Hq. rewrite (deliver_cons _ _ _ _ _ Hq).
  set (b1 := call (Settle k) false m _).
  assert (Hq1 : callbacks b1 = Settle <$> seq (S k) n) by apply call_callbacks.
  assert (Hp1 : promises b1 = (settled ++ [Resolved m]) ++ replicate n Pending).
  { subst b1. rewrite call_promises, settle_promises, Hp.
    rewrite lookup_app_r, Hk, Nat.sub_diag by lia. cbn [replicate lookup list_lookup].
    rewrite insert_app_r_alt, Hk, Nat.sub_diag by lia.
    cbn [insert list_insert]. rewrite <- app_assoc. reflexivity. }
  destruct (IH b1 (S k) n (settled ++ [Resolved m]) Hq1 Hp1) as (H1 & H2 & H3);
    [rewrite length_app; simpl; lia | lia |].
  split; [exact H1 |]. split.
  - rewrite H2. cbn [length]. do 2 f_equal; lia.
  - rewrite H3, <- app_assoc. cbn [length fmap list_fmap app]. 
    replace (S n - S (length ms)) with (n - length ms) by lia. reflexivity.
Qed.

(** ** The data handler *)

Lemma on_data_parsed data b ms st :
  codec_parse (codec_write data (protocol b)) = (Some ms, st) ->
  on_data data b =
  deliver ms (with_protocol st (with_protocol (codec_write data (protocol b)) b)).
Proof. intros H. unfold on_data. cbn [protocol with_protocol]. rewrite H. reflexivity. Qed.

(** ** Handlers that only notify *)

Lemma emit_trace (e : effect Message) b : trace (emit e b) = trace b ++ [e].
Proof. reflexivity. Qed.

Lemma on_close_trace had_error b :
  trace (on_close had_error b) =
  trace b ++ match handle_close b with
             | Some l => [Invoke l (BoolArgument had_error)]
             | None => []
             end.
Proof.
  unfold on_close. destruct (handle_close b); [reflexivity |].
  now rewrite app_nil_r.
Qed.

Lemma quiet_on_connect : still on_connect.
Proof. intros b. unfold on_connect. destruct (handle_connect b); done. Qed.

Lemma quiet_on_timeout : still on_timeout.
Proof. intros b. unfold on_timeout. destruct (handle_timeout b); done. Qed.

Lemma quiet_on_error err : still (on_error err).
Proof. intros b. unfold on_error. destruct (handle_error b); done. Qed.

Lemma quiet_on_close had_error : still (on_close had_error).
Proof. intros b. unfold on_close. destruct (handle_close b); done. Qed.

Lemma quiet_close : still close.
Proof. intros b. done. Qed.

Lemma quiet_auth_catch err : still (auth_catch err).
Proof.
  intros b. unfold auth_catch. destruct (quiet_on_error err b) as (? & ? & ?).
  done.
Qed.

Lemma quiet_auth_resume : still auth_resume.
Proof.
  intros b. unfold auth_resume. destruct (awaited b) as [p |]; [| done].
  destruct (promises b !! p) as [[| m | e] |]; try done.
  - destruct (instanceof_Error m); [| done].
    destruct (quiet_auth_catch (Thrown m) (with_awaited None b)) as (? & ? & ?).
    done.
  - destruct (quiet_auth_catch e (with_awaited None b)) as (? & ? & ?). done.
Qed.

Lemma quiet_on name l : still (fun b => (on name l b).1).
Proof. intros b. unfold on. repeat case_decide; done. Qed.

(** ** Runs, step by step *)

Lemma run_cons e es b :
  run (e :: es) b =
  ((run es (step e b).1).1, option_list (step e b).2 ++ (run es (step e b).1).2).
Proof.
  cbn [run]. destruct (step e b) as [b' x]. cbn [fst snd].
  destruct (run es b') as [b'' xs]. reflexivity.
Qed.

(** ** The queue in reachable states *)

Lemma settle_length p v b : length (promises (settle p v b)) = length (promises b).
Proof.
  rewrite settle_promises. destruct (promises b !! p) as [[| |] |]; try done.
  apply length_insert.
Qed.

Lemma queue_fresh_still f b : still f -> queue_fresh b -> queue_fresh (f b).
Proof.
  intros Hf [Hnd Hlt]. destruct (Hf b) as (_ & Hq & Hp).
  unfold queue_fresh. rewrite Hq, Hp. done.
Qed.

Lemma queue_fresh_command parameters b :
  queue_fresh b -> queue_fresh (command parameters b).2.
Proof.
  intros [Hnd Hlt]. unfold command, queue_fresh.
  assert (Hnew : Settle (length (promises b)) ∉ callbacks b).
  { intros Hin. rewrite Forall_forall in Hlt. specialize (Hlt _ Hin).
    simpl in Hlt. lia. }
  assert (Hall : Forall (fun cb => match cb with
                                   | Settle p => p < length (promises b ++ [Pending (Message := Message)])
                                   end)
                        (callbacks b ++ [Settle (length (promises b))])).
  { rewrite length_app. simpl. apply Forall_app. split.
    - eapply Forall_impl; [exact Hlt |]. intros [p] Hp. lia.
    - constructor; [lia | constructor]. }
  assert (Hnd' : NoDup (callbacks b ++ [Settle (length (promises b))])).
  { apply NoDup_app. split; [exact Hnd |]. split; [| apply NoDup_singleton].
    intros cb Hcb Hin. apply list_elem_of_singleton in Hin. subst cb. done. }
  destruct (codec_encode parameters); cbn [snd].
  - split; [exact Hnd' | exact Hall].
  - rewrite settle_callbacks. split; [exact Hnd' |].
    eapply Forall_impl; [exact Hall |]. intros [p] Hp.
    rewrite settle_length. exact Hp.
Qed.

Lemma queue_fresh_deliver ms :
  forall b, queue_fresh b -> queue_fresh (deliver ms b).1.
Proof.
  induction ms as [| m ms IH]; intros b Hb; cbn [deliver]; [exact Hb |].
  destruct (callbacks b) as [| [p] q] eqn:E; [exact Hb |].
  apply IH. destruct Hb as [Hnd Hlt]. rewrite E in Hnd, Hlt.
  apply NoDup_cons in Hnd as [_ Hnd]. apply Forall_cons in Hlt as [_ Hlt].
  unfold queue_fresh. rewrite call_callbacks. split; [exact Hnd |].
  eapply Forall_impl; [exact Hlt |]. intros [p'] Hp'.
  rewrite call_promises, settle_length. exact Hp'.
Qed.

Lemma queue_fresh_step e b : queue_fresh b -> queue_fresh (step e b).1.
Proof.
  intros Hb.
  destruct e as [ps | name l | | | | err | had_error | data |]; cbn [step fst].
  - apply queue_fresh_command, Hb.
  - apply (queue_fresh_still _ _ (quiet_on name l) Hb).
  - apply (queue_fresh_still _ _ quiet_close Hb).
  - apply (queue_fresh_still _ _ quiet_on_connect Hb).
  - apply (queue_fresh_still _ _ quiet_on_timeout Hb).
  - apply (queue_fresh_still _ _ (quiet_on_error err) Hb).
  - apply (queue_fresh_still _ _ (quiet_on_close had_error) Hb).
  - unfold on_data. cbn [protocol with_protocol].
    destruct (codec_parse _) as [[ms |] st]; [| exact Hb].
    apply queue_fresh_deliver. exact Hb.
  - apply (queue_fresh_still _ _ quiet_auth_resume Hb).
Qed.

Lemma queue_fresh_constructor uuid o : queue_fresh (constructor uuid o).
Proof.
  assert (H0 : forall b, callbacks b = [] -> queue_fresh b).
  { intros b Hq. unfold queue_fresh. rewrite Hq. split; constructor. }
  assert (Ha : forall b a, queue_fresh b -> queue_fresh (with_awaited a b))
    by (intros b a Hb; exact Hb).
  unfold constructor.
  set (b0 := match options_timeout o with Some _ => _ | None => _ end).
  assert (Hb0 : queue_fresh b0)
    by (apply H0; subst b0; destruct (options_timeout o); reflexivity).
  assert (Hauth : forall options, queue_fresh (auth options b0)).
  { intros options. unfold auth.
    destruct (username options) as [u |], (password options) as [pw |];
      try (apply (queue_fresh_still _ _ (quiet_auth_catch _) Hb0));
      match goal with
      | |- context [command ?ps b0] =>
        pose proof (queue_fresh_command ps b0 Hb0) as Hc;
        destruct (command ps b0) as [p b']; exact Hc
      end. }
  destruct (options_username o) as [u |]; [apply Hauth |].
  destruct (options_password o) as [pw |]; [apply Hauth | exact Hb0].
Qed.

(** In every state a run reaches, the entries of the queue are distinct. *)
Lemma run_queue_fresh es :
  forall b, queue_fresh b -> queue_fresh (run es b).1.
Proof.
  induction es as [| e es IH]; intros b Hb; [exact Hb |].
  rewrite run_cons. cbn [fst]. apply IH, queue_fresh_step, Hb.
Qed.

(** ** The claims about one handler or one call *)

(** C2, as the code has it: every reply a 'data' event decodes pops the
    oldest pending entry and resolves it as a success with the message,
    whatever the variant of the message, an error reply included; the reply
    at position [i] settles the entry at position [i] of the queue and no
    promise outside the answered entries changes. *)
Theorem data_resolves_positionally b data ms st :
  codec_parse (codec_write data (protocol b)) = (Some ms, st) ->
  length ms <= length (callbacks b) ->
  NoDup (callbacks b) ->
  callbacks (on_data data b).1 = drop (length ms) (callbacks b) /\
  (forall i p m,
     callbacks b !! i = Some (Settle p) -> ms !! i = Some m ->
     promises b !! p = Some Pending ->
     promises (on_data data b).1 !! p = Some (Resolved m)) /\
  (forall p,
     (forall i, i < length ms -> callbacks b !! i <> Some (Settle p)) ->
     promises (on_data data b).1 !! p = promises b !! p).
Proof.
  intros Hparse Hlen Hnd. rewrite (on_data_parsed _ _ _ _ Hparse).
  set (b0 := with_protocol st _).
  destruct (deliver_enough ms b0 Hlen) as [_ Hq].
  destruct (deliver_positions ms b0 Hnd) as [Hin Hout].
  split; [exact Hq |]. split; [exact Hin | exact Hout].
Qed.

(** C9: when [parse] returns no more messages than there are pending
    callbacks, every [shift] yields a callback and the handler raises
    nothing; when it returns more, the handler calls [undefined]: the
    exception that escapes is the TypeError of that call, and the queue is
    empty. *)
Theorem data_shift_unchecked b data ms st :
  codec_parse (codec_write data (protocol b)) = (Some ms, st) ->
  (length ms <= length (callbacks b) -> (on_data data b).2 = None) /\
  (length (callbacks b) < length ms ->
     (on_data data b).2 = Some NotAFunction /\
     callbacks (on_data data b).1 = []).
Proof.
  intros Hparse. rewrite (on_data_parsed _ _ _ _ Hparse).
  set (b0 := with_protocol st _). split; intros Hlen.
  - apply (deliver_enough ms b0 Hlen).
  - apply (deliver_short ms b0 Hlen).
Qed.

(** C3, as the code has it: when the transport closes, the handler calls
    the registered close listener, if there is one, with [had_error], and
    does nothing else: the pending queue and every promise stay as they
    were.  The same holds for the error and the timeout handlers. *)
Theorem close_keeps_pending b had_error err :
  (callbacks (on_close had_error b) = callbacks b /\
   promises (on_close had_error b) = promises b /\
   trace (on_close had_error b) =
     trace b ++ match handle_close b with
                | Some l => [Invoke l (BoolArgument had_error)]
                | None => []
                end) /\
  (callbacks (on_error err b) = callbacks b /\
   promises (on_error err b) = promises b) /\
  (callbacks (on_timeout b) = callbacks b /\
   promises (on_timeout b) = promises b).
Proof.
  destruct (quiet_on_close had_error b) as (_ & Hc & Hp).
  destruct (quiet_on_error err b) as (_ & Hc' & Hp').
  destruct (quiet_on_timeout b) as (_ & Hc'' & Hp'').
  pose proof (on_close_trace had_error b). done.
Qed.

(** C4, as the code has it: when the encoder throws, nothing is written to
    the transport and the returned promise is rejected; the entry was
    pushed before the encoder ran, so the queue after the call is the queue
    before it followed by the new entry. *)
Theorem command_encode_failure parameters b :
  codec_encode parameters = None ->
  (command parameters b).1 = length (promises b) /\
  callbacks (command parameters b).2 =
    callbacks b ++ [Settle (length (promises b))] /\
  promises (command parameters b).2 = promises b ++ [Rejected EncodeError] /\
  trace (command parameters b).2 = trace b ++ [Push (length (promises b))].
Proof.
  intros Henc. unfold command. rewrite Henc. cbn [fst snd].
  rewrite settle_callbacks, settle_trace, settle_promises.
  cbn [promises callbacks trace emit with_callbacks with_promises].
  rewrite lookup_app_r, Nat.sub_diag by lia. cbn [lookup list_lookup].
  rewrite insert_app_r_alt, Nat.sub_diag by lia. done.
Qed.

(** C10: [on] with one of the four event names stores the listener in the
    slot of that event, whatever was there, leaves the other slots as they
    were and returns; with any other name it throws the Error "event not
    found" and the connection is unchanged. *)
Theorem on_stores_or_throws name l b :
  (name ∈ listenable ->
     (on name l b).2 = None /\
     handler name (on name l b).1 = Some l /\
     (forall other, other <> name ->
        handler other (on name l b).1 = handler other b)) /\
  (name ∉ listenable ->
     on name l b = (b, Some (JsError "event not found"))).
Proof.
  unfold listenable. split.
  - intros Hin. rewrite !elem_of_cons, elem_of_nil in Hin.
    destruct Hin as [-> | [-> | [-> | [-> | []]]]];
      (split; [reflexivity |]); (split; [reflexivity |]);
      intros other Hne; unfold handler, on; cbn;
      repeat case_decide; done.
  - intros Hout. rewrite !not_elem_of_cons in Hout.
    destruct Hout as (H1 & H2 & H3 & H4 & _).
    unfold on. rewrite !decide_False by assumption. reflexivity.
Qed.

(** ** The order of pushes and writes *)

Lemma pushes_app t s : pushes (t ++ s) = pushes t + pushes s.
Proof.
  induction t as [| e t IH]; [reflexivity |].
  destruct e; simpl; rewrite IH; reflexivity.
Qed.

Lemma writes_app t s : writes (t ++ s) = writes t + writes s.
Proof.
  induction t as [| e t IH]; [reflexivity |].
  destruct e; simpl; rewrite IH; reflexivity.
Qed.

Lemma registered_first_app t s :
  registered_first t -> registered_first s -> registered_first (t ++ s).
Proof.
  intros Ht Hs n. rewrite take_app, writes_app, pushes_app.
  specialize (Ht n). specialize (Hs (n - length t)). lia.
Qed.

Lemma registered_first_nil : registered_first (Message := Message) [].
Proof. intros n. rewrite take_nil. reflexivity. Qed.

Lemma registered_first_one (e : effect Message) :
  writes [e] = 0 -> registered_first [e].
Proof.
  intros He [| n]; [simpl; lia |].
  rewrite firstn_all2 by (simpl; lia). lia.
Qed.

Lemma registered_first_push_write p w :
  w = [] \/ (exists data, w = [Write data]) -> registered_first (Push p :: w).
Proof.
  intros [-> | [data ->]] [| [| n]]; simpl; try lia.
  rewrite take_nil. simpl. lia.
Qed.

Lemma command_trace parameters b :
  exists w, trace (command parameters b).2 =
              trace b ++ Push (command parameters b).1 :: w /\
            (w = [] \/ exists data, w = [Write data]).
Proof.
  unfold command. destruct (codec_encode parameters) as [data |]; cbn [fst snd].
  - exists [Write data]. split; [| right; eauto].
    cbn [trace emit with_callbacks with_promises]. now rewrite <- app_assoc.
  - exists []. split; [| left; reflexivity]. now rewrite settle_trace.
Qed.

Lemma on_error_trace err b :
  exists e, trace (on_error err b) = trace b ++ [e] /\ writes [e] = 0.
Proof.
  unfold on_error. destruct (handle_error b); eexists; split; reflexivity.
Qed.

Lemma auth_catch_trace err b :
  exists s, trace (auth_catch err b) = trace b ++ s /\ registered_first s.
Proof.
  unfold auth_catch. destruct (on_error_trace err b) as (e & He & Hw).
  exists ([e] ++ [End]). rewrite emit_trace, He, <- app_assoc. split; [done |].
  apply registered_first_app; apply registered_first_one; done.
Qed.

Lemma auth_resume_trace b :
  exists s, trace (auth_resume b) = trace b ++ s /\ registered_first s.
Proof.
  unfold auth_resume.
  assert (Hnil : exists s, trace b = trace b ++ s /\ registered_first s).
  { exists []. rewrite app_nil_r. split; [done | apply registered_first_nil]. }
  destruct (awaited b) as [p |]; [| exact Hnil].
  destruct (promises b !! p) as [[| m | e] |]; try exact Hnil.
  - destruct (instanceof_Error m); [| exact Hnil].
    apply (auth_catch_trace (Thrown m) (with_awaited None b)).
  - apply (auth_catch_trace e (with_awaited None b)).
Qed.

Lemma step_trace e b :
  exists s, trace (step e b).1 = trace b ++ s /\ registered_first s.
Proof.
  assert (Hnil : forall t, exists s, t = t ++ s /\ registered_first s).
  { intros t. exists []. rewrite app_nil_r.
    split; [done | apply registered_first_nil]. }
  destruct e as [ps | name l | | | | err | had_error | data |]; cbn [step fst].
  - destruct (command_trace ps b) as (w & Hw & Hshape).
    eexists. split; [exact Hw |]. apply registered_first_push_write, Hshape.
  - unfold on. repeat case_decide; apply Hnil.
  - exists [End]. split; [reflexivity |]. apply registered_first_one. done.
  - unfold on_connect. destruct (handle_connect b); [| apply Hnil].
    eexists. split; [reflexivity |]. apply registered_first_one. done.
  - unfold on_timeout. destruct (handle_timeout b);
      (eexists; split; [reflexivity |]; apply registered_first_one; done).
  - destruct (on_error_trace err b) as (e & He & Hw).
    exists [e]. split; [exact He |]. apply registered_first_one, Hw.
  - unfold on_close. destruct (handle_close b); [| apply Hnil].
    eexists. split; [reflexivity |]. apply registered_first_one. done.
  - unfold on_data. cbn [protocol with_protocol].
    destruct (codec_parse _) as [[ms |] st].
    + rewrite deliver_trace. apply Hnil.
    + apply Hnil.
  - apply auth_resume_trace.
Qed.

Lemma run_trace es :
  forall b, exists s, trace (run es b).1 = trace b ++ s /\ registered_first s.
Proof.
  induction es as [| e es IH]; intros b.
  - exists []. rewrite app_nil_r. split; [done | apply registered_first_nil].
  - rewrite run_cons. cbn [fst].
    destruct (step_trace e b) as (s1 & H1 & Hs1).
    destruct (IH (step e b).1) as (s2 & H2 & Hs2).
    exists (s1 ++ s2). rewrite H2, H1, <- app_assoc. split; [done |].
    apply registered_first_app; assumption.
Qed.

Lemma auth_trace options b :
  exists s, trace (auth options b) = trace b ++ s /\ registered_first s.
Proof.
  unfold auth.
  destruct (username options) as [u |], (password options) as [pw |];
    try apply auth_catch_trace;
    match goal with
    | |- context [command ?ps b] =>
      destruct (command_trace ps b) as (w & Hw & Hshape);
      destruct (command ps b) as [p b'] eqn:E; cbn [fst snd] in Hw;
      exists (Push p :: w); split; [exact Hw |];
      apply registered_first_push_write, Hshape
    end.
Qed.

Lemma constructor_trace uuid options :
  registered_first (trace (constructor uuid options)).
Proof.
  unfold constructor.
  set (b0 := match options_timeout options with Some _ => _ | None => _ end).
  assert (Hb0 : trace b0 = []) by (subst b0; destruct (options_timeout options); reflexivity).
  destruct (options_username options) as [u |].
  - destruct (auth_trace {| username := Some u;
                            password := options_password options |} b0)
      as (s & Hs & Hr).
    rewrite Hs, Hb0. exact Hr.
  - destruct (options_password options) as [pw |].
    + destruct (auth_trace {| username := None; password := Some pw |} b0)
        as (s & Hs & Hr).
      rewrite Hs, Hb0. exact Hr.
    + rewrite Hb0. apply registered_first_nil.
Qed.

(** ** Authentication *)

(** The suspended [auth] is invisible to [command] and to the data
    handler. *)
Lemma settle_with_awaited a p v b :
  settle p v (with_awaited a b) = with_awaited a (settle p v b).
Proof.
  unfold settle. change (promises (with_awaited a b)) with (promises b).
  destruct (promises b !! p) as [[| |] |]; reflexivity.
Qed.

Lemma deliver_with_awaited a ms :
  forall b, deliver ms (with_awaited a b) =
            (with_awaited a (deliver ms b).1, (deliver ms b).2).
Proof.
  induction ms as [| m ms IH]; intros b; cbn [deliver]; [reflexivity |].
  change (callbacks (with_awaited a b)) with (callbacks b).
  destruct (callbacks b) as [| [p] q]; [reflexivity |].
  rewrite <- IH. f_equal. cbn [call].
  change (with_callbacks q (with_awaited a b))
    with (with_awaited a (with_callbacks q b)).
  apply settle_with_awaited.
Qed.

Lemma on_data_with_awaited a data b :
  on_data data (with_awaited a b) =
  (with_awaited a (on_data data b).1, (on_data data b).2).
Proof.
  unfold on_data. cbn [protocol with_protocol with_awaited].
  destruct (codec_parse _) as [[ms |] st]; [| reflexivity].
  rewrite <- deliver_with_awaited. reflexivity.
Qed.

Lemma command_with_awaited a parameters b :
  command parameters (with_awaited a b) =
  ((command parameters b).1, with_awaited a (command parameters b).2).
Proof.
  unfold command. cbn [promises with_awaited].
  destruct (codec_encode parameters); cbn [fst snd]; [reflexivity |].
  rewrite <- settle_with_awaited. reflexivity.
Qed.

(** C8: the constructor of a connection with credentials does what the
    constructor without them does and then makes one call of [command],
    with AUTH and the credentials that are strings as its parameters: user
    and password, the user alone, or the password alone; without
    credentials it makes no call.  Nothing but the suspended [auth]
    distinguishes the state from that of an ordinary call of [command] on
    the fresh connection, and neither [command] nor the data handler looks
    at it; the call is the first thing in the trace of every run. *)
Theorem auth_is_one_command uuid o :
  constructor uuid o =
    match auth_shape o with
    | Some parameters =>
      with_awaited (Some 0)
        (command parameters (constructor uuid (anonymous o))).2
    | None => constructor uuid (anonymous o)
    end /\
  (trace (constructor uuid (anonymous o)) = [] /\
   callbacks (constructor uuid (anonymous o)) = [] /\
   promises (constructor uuid (anonymous o)) = []) /\
  (forall a parameters data (b : Base Message CodecState),
     command parameters (with_awaited a b) =
       ((command parameters b).1, with_awaited a (command parameters b).2) /\
     on_data data (with_awaited a b) =
       (with_awaited a (on_data data b).1, (on_data data b).2)) /\
  (forall es,
     trace (constructor uuid o) `prefix_of`
     trace (run es (constructor uuid o)).1).
Proof.
  split; [| split; [| split]].
  - unfold constructor, auth_shape, anonymous, auth, command.
    cbn [options_username options_password options_timeout options_host
         options_port options_tls username password].
    destruct (options_timeout o), (options_username o) as [u |],
      (options_password o) as [pw |]; try reflexivity;
      cbn [promises with_promises with_callbacks emit length];
      destruct (codec_encode _); reflexivity.
  - unfold constructor, anonymous.
    cbn [options_username options_password options_timeout].
    destruct (options_timeout o); done.
  - intros a parameters data b.
    split; [apply command_with_awaited | apply on_data_with_awaited].
  - intros es. destruct (run_trace es (constructor uuid o)) as (s & Hs & _).
    exists s. exact Hs.
Qed.

End base_facts.

(* ===================================================================== *)
(** * The connection over the RESP codec *)
(* ===================================================================== *)

Section encoder_facts.

Lemma encode_loop_frame ps :
  forallb typed ps = true ->
  forall request,
    encode_loop request ps =
    Some (request ++
          mjoin ((fun p => x24 :: decimal (Z.of_nat (length (argument_text p)))
                               ++ CRLF ++ argument_text p ++ CRLF) <$> ps)).
Proof.
  induction ps as [| p ps IH]; intros Hty request.
  - cbn. now rewrite app_nil_r.
  - cbn [forallb] in Hty. apply andb_prop in Hty as [Hp Hps].
    cbn [encode_loop]. destruct p as [s | z |]; [| | discriminate Hp];
      cbn [param_text]; rewrite (IH Hps); cbn [fmap list_fmap mjoin list_join];
      rewrite <- app_assoc; reflexivity.
Qed.

Lemma encode_typed ps : forallb typed ps = true -> is_Some (encode ps).
Proof. intros H. unfold encode. rewrite encode_loop_frame by assumption. eauto. Qed.

(** C7: the encoder produces the array header with the argument count and
    then, for each argument in order, the length header, the bytes and the
    terminator, an integer argument in its decimal text; SET k v is encoded
    as the twenty-nine bytes of the scenario. *)
Theorem encode_is_request_frame :
  (forall ps, forallb typed ps = true -> encode ps = Some (request_frame ps)) /\
  encode [Str (text "SET"); Str (text "k"); Str (text "v")] =
    Some (text "*3" ++ CRLF ++ text "$3" ++ CRLF ++ text "SET" ++ CRLF ++
          text "$1" ++ CRLF ++ text "k" ++ CRLF ++
          text "$1" ++ CRLF ++ text "v" ++ CRLF).
Proof.
  split; [| reflexivity].
  intros ps Hty. unfold encode, request_frame.
  rewrite encode_loop_frame by assumption.
  rewrite <- app_comm_cons, <- app_assoc. reflexivity.
Qed.

End encoder_facts.

Section split_facts.

Lemma parse_drain buf :
  parse {| buffer := buf |} =
  match drain buf with
  | (ms, Rest r) => (Some ms, {| buffer := r |})
  | (_, Broken) => (None, {| buffer := buf |})
  end.
Proof. reflexivity. Qed.

Lemma wf_all ms : forallb wf ms = true -> Forall (fun m => wf m = true) ms.
Proof.
  rewrite forallb_forall, Forall_forall. intros H m Hm.
  apply H, list_elem_of_In, Hm.
Qed.

(** C6: the bytes of [K] replies, cut at any offset into two writes with a
    parse after each, give the [K] messages a single write gives; the
    first parse returns the replies that arrived whole and leaves exactly
    the bytes of the cut one in the buffer, nothing of it consumed, and the
    second parse takes up from there. *)
Theorem split_write_same_messages ms n :
  forallb wf ms = true ->
  exists ms1 ms2 r,
    parse (write (take n (wire ms)) new) = (Some ms1, {| buffer := r |}) /\
    take n (wire ms) = wire ms1 ++ r /\
    decode r = More /\
    parse (write (drop n (wire ms)) {| buffer := r |}) =
      (Some ms2, {| buffer := [] |}) /\
    ms1 ++ ms2 = ms /\
    parse (write (wire ms) new) = (Some ms, {| buffer := [] |}).
Proof.
  intros Hwf. apply wf_all in Hwf.
  destruct (drain_prefix ms Hwf (take n (wire ms)) (prefix_take _ _))
    as (k & r & Hk & Hd & Heq & Hr).
  pose proof (drain_wire_all ms Hwf) as Hall.
  pose proof (drain_app _ _ _ (drop n (wire ms)) Hd) as Happ.
  rewrite take_drop, Hall in Happ.
  destruct (drain (r ++ drop n (wire ms))) as [ms2 e] eqn:E2.
  injection Happ as Hms He. subst e.
  exists (take k ms), ms2, r.
  unfold write, new. cbn [buffer app]. rewrite !parse_drain, Hd, E2, Hall.
  repeat (split; [done |]). done.
Qed.

End split_facts.

Section pairing_facts.

Ltac resp_lia := lia.

Implicit Types (b : RespBase) (replies : list WireMessage).

Lemma constructor_shape uuid o :
  protocol (constructor (codec := resp) uuid o) = new /\
  ((promises (constructor (codec := resp) uuid o) = [] /\
    callbacks (constructor (codec := resp) uuid o) = []) \/
   (promises (constructor (codec := resp) uuid o) = [Pending] /\
    callbacks (constructor (codec := resp) uuid o) = [Settle 0])).
Proof.
  unfold constructor, auth, command.
  destruct (options_timeout o), (options_username o) as [u |],
    (options_password o) as [pw |]; cbn; split; auto.
Qed.

Lemma paired_constructor replies uuid o :
  paired replies (constructor uuid o)
    (length (promises (constructor (codec := resp) uuid o))) [].
Proof.
  destruct (constructor_shape uuid o) as [Hp [[Hs Hq] | [Hs Hq]]];
    exists 0; rewrite Hp, Hs, Hq; cbn;
    (split; [lia |]); (split; [lia |]); (split; [reflexivity |]);
    split; reflexivity.
Qed.

Lemma paired_quiet replies f b n sent :
  quiet f -> paired replies b n sent -> paired replies (f b) n sent.
Proof.
  intros Hf (k & Hk & Hk' & Hd & Hq & Hp). destruct (Hf b) as (H1 & H2 & H3).
  exists k. rewrite H1, H2, H3. done.
Qed.

Lemma paired_length replies b n sent :
  paired replies b n sent -> length (promises b) = n.
Proof.
  intros (k & Hk & Hk' & _ & _ & Hp).
  rewrite Hp, length_app, length_fmap, length_take, length_replicate. resp_lia.
Qed.

Lemma paired_command replies ps b n sent :
  forallb typed ps = true ->
  paired replies b n sent -> paired replies (command ps b).2 (S n) sent.
Proof.
  intros Hty Hpair. pose proof (paired_length _ _ _ _ Hpair) as Hlen.
  destruct Hpair as (k & Hk & Hk' & Hd & Hq & Hp).
  destruct (encode_typed ps Hty) as [data Hdata].
  unfold command. cbn [codec_encode resp]. rewrite Hdata. cbn [snd].
  exists k. cbn [protocol callbacks promises emit with_callbacks with_promises].
  split; [lia |]. split; [exact Hk' |]. split; [exact Hd |].
  replace (S n - k) with (S (n - k)) by lia. split.
  - rewrite Hq, Hlen, seq_S, fmap_app. cbn. do 3 f_equal. lia.
  - rewrite Hp, replicate_S_end, app_assoc. reflexivity.
Qed.

Lemma paired_data replies data b n sent :
  Forall (fun m => wf m = true) replies ->
  paired replies b n sent ->
  (sent ++ data) `prefix_of` wire (take n replies) ->
  (on_data data b).2 = None /\ paired replies (on_data data b).1 n (sent ++ data).
Proof.
  intros Hwf (k & Hk & Hk' & Hd & Hq & Hp) Hpre.
  destruct (drain_prefix (take n replies) (Forall_take _ _ _ Hwf) _ Hpre)
    as (k' & r' & Hk1 & Hd' & _ & _).
  rewrite length_take in Hk1. rewrite take_take in Hd'.
  replace (k' `min` n) with k' in Hd' by resp_lia.
  pose proof (drain_app _ _ _ data Hd) as Happ. rewrite Hd' in Happ.
  destruct (drain (buffer (protocol b) ++ data)) as [ms' e] eqn:E.
  injection Happ as Hms He. subst e.
  assert (Hlen : k + length ms' = k').
  { apply (f_equal length) in Hms.
    rewrite length_app, !length_take in Hms. resp_lia. }
  assert (Hparse : codec_parse (codec_write data (protocol b)) =
                   (Some ms', {| buffer := r' |})).
  { cbn [codec_parse codec_write resp]. unfold write.
    rewrite parse_drain, E. reflexivity. }
  rewrite (on_data_parsed _ _ _ _ Hparse).
  set (b0 := with_protocol _ _).
  destruct (deliver_queue (CodecState := Decoder) ms' b0 k (n - k) _ Hq Hp)
    as (Hnone & Hq' & Hp'); [| resp_lia |].
  { rewrite length_fmap, length_take. resp_lia. }
  split; [exact Hnone |]. exists k'.
  split; [resp_lia |]. split; [resp_lia |]. split; [| split].
  - rewrite deliver_protocol. exact Hd'.
  - rewrite Hq'. do 2 f_equal; resp_lia.
  - rewrite Hp', Hms, fmap_app, <- app_assoc. do 3 f_equal. resp_lia.
Qed.

Lemma on_exception name l b :
  (on name l b).2 = None \/ (on name l b).2 = Some (JsError "event not found").
Proof. unfold on. repeat case_decide; auto. Qed.

Lemma fifo_run replies :
  Forall (fun m => wf m = true) replies ->
  forall es b n sent,
    paired replies b n sent ->
    typed_calls es = true ->
    served replies n sent es ->
    promises (run es b).1 = Resolved <$> replies /\
    callbacks (run es b).1 = [] /\
    Forall (fun x => x = JsError "event not found") (run es b).2.
Proof.
  intros Hwf. induction es as [| e es IH]; intros b n sent Hpair Hty Hserved.
  - destruct Hserved as [-> ->].
    destruct Hpair as (k & Hk & _ & Hd & Hq & Hp).
    rewrite (drain_wire_all _ Hwf) in Hd. injection Hd as Hrep _.
    assert (k = length replies) as ->.
    { apply (f_equal length) in Hrep. rewrite length_take in Hrep. lia. }
    cbn [run fst snd]. rewrite Hp, Hq, Nat.sub_diag, <- Hrep.
    cbn. rewrite app_nil_r. done.
  - rewrite run_cons. cbn [fst snd].
    cbn [typed_calls forallb] in Hty. apply andb_prop in Hty as [Hte Hty].
    assert (Hquiet : forall f, quiet f -> paired replies (f b) n sent).
    { intros f Hf. apply paired_quiet; assumption. }
    destruct e as [ps | name l | | | | err | had_error | data |];
      cbn [served] in Hserved; cbn [step fst snd option_list app].
    + apply (IH _ (S n) sent); [| exact Hty | exact Hserved].
      apply paired_command; assumption.
    + destruct (IH _ n sent (Hquiet _ (quiet_on name l)) Hty Hserved)
        as (H1 & H2 & H3).
      split; [exact H1 |]. split; [exact H2 |].
      apply Forall_app. split; [| exact H3].
      destruct (on_exception name l b) as [-> | ->]; cbn; auto.
    + apply (IH _ n sent (Hquiet _ quiet_close) Hty Hserved).
    + apply (IH _ n sent (Hquiet _ quiet_on_connect) Hty Hserved).
    + apply (IH _ n sent (Hquiet _ quiet_on_timeout) Hty Hserved).
    + apply (IH _ n sent (Hquiet _ (quiet_on_error err)) Hty Hserved).
    + apply (IH _ n sent (Hquiet _ (quiet_on_close had_error)) Hty Hserved).
    + destruct Hserved as [Hpre Hserved].
      destruct (paired_data replies data b n sent Hwf Hpair Hpre) as [Hnone Hpair'].
      rewrite Hnone. cbn [option_list app].
      apply (IH _ n (sent ++ data)); assumption.
    + apply (IH _ n sent (Hquiet _ quiet_auth_resume) Hty Hserved).
Qed.

(** C1: take any run of a connection in which the server answers each
    command once, in issue order, its bytes arriving in 'data' events cut
    anywhere, and never ahead of the command they answer.  Then the promise
    of the command issued at each position is resolved with the reply at
    that position, the queue ends empty, and no handler has failed. *)
Theorem fifo_pairing uuid o es replies :
  forallb wf replies = true ->
  typed_calls es = true ->
  served replies (length (promises (constructor (codec := resp) uuid o))) [] es ->
  promises (run es (constructor uuid o)).1 = Resolved <$> replies /\
  callbacks (run es (constructor uuid o)).1 = [] /\
  Forall (fun x => x = JsError "event not found")
         (run es (constructor uuid o)).2.
Proof.
  intros Hwf Hty Hserved.
  eapply fifo_run; [apply wf_all, Hwf | | exact Hty | exact Hserved].
  apply paired_constructor.
Qed.

End pairing_facts.

(* ===================================================================== *)
(** * The claims on the sample exchange *)
(* ===================================================================== *)

Section examples.

Lemma fifo_pairing_sample :
  (forallb wf sample_replies = true /\
   typed_calls sample_run = true /\
   served sample_replies
     (length (promises (constructor (codec := resp) "" with_password))) []
     sample_run) /\
  promises (run sample_run (constructor "" with_password)).1 =
    Resolved <$> sample_replies /\
  callbacks (run sample_run (constructor "" with_password)).1 = [] /\
  Forall (fun x => x = JsError "event not found")
         (run sample_run (constructor "" with_password)).2.
Proof.
  assert (H : served sample_replies
                (length (promises (constructor (codec := resp) "" with_password)))
                [] sample_run).
  { cbn. split; [eexists; reflexivity |]. split; [eexists; reflexivity |].
    split; [eexists; reflexivity |]. split; reflexivity. }
  split; [split; [reflexivity | split; [reflexivity | exact H]] |].
  exact (fifo_pairing "" with_password sample_run sample_replies
           eq_refl eq_refl H).
Defined.

Lemma three_pending_queue :
  callbacks three_pending = [Settle 0; Settle 1; Settle 2] /\
  promises three_pending = [Pending; Pending; Pending].
Proof. split; reflexivity. Defined.

Lemma three_pending_NoDup : NoDup (callbacks three_pending).
Proof.
  rewrite (proj1 three_pending_queue).
  repeat (apply NoDup_cons; split;
          [rewrite ?elem_of_cons, elem_of_nil; intros H;
           repeat (destruct H as [H | H]; [discriminate H |]); exact H |]).
  apply NoDup_nil. exact I.
Defined.

Lemma ok_then_error_parsed :
  codec_parse (codec_write ok_then_error (protocol three_pending)) =
  (Some [Simple (text "OK"); Error (text "ERR wrong number")],
   {| buffer := [] |}).
Proof. reflexivity. Defined.

Lemma data_resolves_positionally_sample :
  (codec_parse (codec_write ok_then_error (protocol three_pending)) =
     (Some [Simple (text "OK"); Error (text "ERR wrong number")],
      {| buffer := [] |}) /\
   2 <= length (callbacks three_pending) /\
   NoDup (callbacks three_pending)) /\
  callbacks (on_data ok_then_error three_pending).1 =
    drop 2 (callbacks three_pending) /\
  (forall i p m,
     callbacks three_pending !! i = Some (Settle p) ->
     [Simple (text "OK"); Error (text "ERR wrong number")] !! i = Some m ->
     promises three_pending !! p = Some Pending ->
     promises (on_data ok_then_error three_pending).1 !! p = Some (Resolved m)) /\
  (forall p,
     (forall i, i < 2 -> callbacks three_pending !! i <> Some (Settle p)) ->
     promises (on_data ok_then_error three_pending).1 !! p =
     promises three_pending !! p).
Proof.
  assert (Hlen : 2 <= length (callbacks three_pending))
    by (rewrite (proj1 three_pending_queue); simpl; lia).
  split; [split; [exact ok_then_error_parsed |
                  split; [exact Hlen | exact three_pending_NoDup]] |].
  pose proof (data_resolves_positionally three_pending ok_then_error _ _
                ok_then_error_parsed Hlen three_pending_NoDup) as H.
  cbn [length] in H. exact H.
Defined.

(** The error reply to the second of three pending commands settles the
    second promise as resolved, with the error message as its value: it is
    not a failure. *)
Lemma error_reply_is_resolved :
  promises (on_data ok_then_error three_pending).1 !! 1 =
    Some (Resolved (Error (text "ERR wrong number"))) /\
  ~ (exists reason,
       promises (on_data ok_then_error three_pending).1 !! 1 =
       Some (Rejected reason)).
Proof.
  split; [vm_compute; reflexivity |].
  intros [reason H]. vm_compute in H. discriminate H.
Qed.

(** The transport closes with three commands pending: the three entries
    are still queued and the three promises still pending. *)
Lemma close_leaves_three_pending :
  callbacks (on_close true three_pending) = [Settle 0; Settle 1; Settle 2] /\
  promises (on_close true three_pending) = [Pending; Pending; Pending] /\
  callbacks (on_close true three_pending) <> [].
Proof.
  split; [vm_compute; reflexivity |].
  split; [vm_compute; reflexivity | vm_compute; discriminate].
Qed.

Lemma command_encode_failure_sample :
  codec_encode (Codec := resp) [Str (text "GET"); Other] = None /\
  (command [Str (text "GET"); Other] three_pending).1 = 3 /\
  callbacks (command [Str (text "GET"); Other] three_pending).2 =
    callbacks three_pending ++ [Settle 3] /\
  promises (command [Str (text "GET"); Other] three_pending).2 =
    promises three_pending ++ [Rejected EncodeError] /\
  trace (command [Str (text "GET"); Other] three_pending).2 =
    trace three_pending ++ [Push 3].
Proof.
  split; [reflexivity |].
  exact (command_encode_failure (codec := resp)
           [Str (text "GET"); Other] three_pending eq_refl).
Defined.

(** A call whose parameters do not encode leaves its entry in the queue:
    the queue after the call is not the queue before it.  The next
    reply, the one to the SET issued afterwards, is spent on that entry and
    the promise of SET stays pending. *)
Lemma failed_command_grows_queue :
  codec_encode (Codec := resp) [Str (text "GET"); Other] = None /\
  callbacks (command [Str (text "GET"); Other] (issued [])).2 <>
    callbacks (issued []) /\
  promises
    (run [CallCommand [Str (text "GET"); Other]; CallCommand SET_k_v;
          SocketData (text "+OK" ++ CRLF)] (issued [])).1 =
    [Rejected EncodeError; Pending].
Proof.
  split; [vm_compute; reflexivity |].
  split; [vm_compute; discriminate | vm_compute; reflexivity].
Qed.

Lemma split_write_same_messages_sample :
  forallb wf (sample_replies ++ [Array [Integer 5; NullBulk]]) = true /\
  exists ms1 ms2 r,
    parse (write (take 9 (wire (sample_replies ++ [Array [Integer 5; NullBulk]])))
             new) = (Some ms1, {| buffer := r |}) /\
    take 9 (wire (sample_replies ++ [Array [Integer 5; NullBulk]])) =
      wire ms1 ++ r /\
    decode r = More /\
    parse (write (drop 9 (wire (sample_replies ++ [Array [Integer 5; NullBulk]])))
             {| buffer := r |}) = (Some ms2, {| buffer := [] |}) /\
    ms1 ++ ms2 = sample_replies ++ [Array [Integer 5; NullBulk]] /\
    parse (write (wire (sample_replies ++ [Array [Integer 5; NullBulk]])) new) =
      (Some (sample_replies ++ [Array [Integer 5; NullBulk]]),
       {| buffer := [] |}).
Proof.
  split; [reflexivity |].
  exact (split_write_same_messages
           (sample_replies ++ [Array [Integer 5; NullBulk]]) 9 eq_refl).
Defined.

Lemma encode_is_request_frame_sample :
  forallb typed [Str (text "INCRBY"); Str (text "n"); Num (-42)] = true /\
  encode [Str (text "INCRBY"); Str (text "n"); Num (-42)] =
    Some (text "*3" ++ CRLF ++ text "$6" ++ CRLF ++ text "INCRBY" ++ CRLF ++
          text "$1" ++ CRLF ++ text "n" ++ CRLF ++
          text "$3" ++ CRLF ++ text "-42" ++ CRLF).
Proof.
  split; [reflexivity |].
  exact (proj1 encode_is_request_frame
           [Str (text "INCRBY"); Str (text "n"); Num (-42)] eq_refl).
Defined.

Lemma data_shift_unchecked_sample :
  (codec_parse (codec_write ok_then_error (protocol three_pending)) =
     (Some [Simple (text "OK"); Error (text "ERR wrong number")],
      {| buffer := [] |}) /\
   2 <= length (callbacks three_pending) /\
   (on_data ok_then_error three_pending).2 = None) /\
  (codec_parse (codec_write ok_then_error (protocol (issued [SET_k_v]))) =
     (Some [Simple (text "OK"); Error (text "ERR wrong number")],
      {| buffer := [] |}) /\
   length (callbacks (issued [SET_k_v])) < 2 /\
   (on_data ok_then_error (issued [SET_k_v])).2 = Some NotAFunction /\
   callbacks (on_data ok_then_error (issued [SET_k_v])).1 = []).
Proof.
  assert (H1 : 2 <= length (callbacks three_pending))
    by (rewrite (proj1 three_pending_queue); simpl; lia).
  assert (H2 : length (callbacks (issued [SET_k_v])) < 2)
    by (change (callbacks (issued [SET_k_v])) with [Settle 0];
        simpl; lia).
  split.
  - split; [exact ok_then_error_parsed |]. split; [exact H1 |].
    exact (proj1 (data_shift_unchecked three_pending ok_then_error _ _
                    ok_then_error_parsed) H1).
  - split; [reflexivity |]. split; [exact H2 |].
    exact (proj2 (data_shift_unchecked (issued [SET_k_v]) ok_then_error
                    [Simple (text "OK"); Error (text "ERR wrong number")]
                    {| buffer := [] |} eq_refl) H2).
Defined.

Lemma on_stores_or_throws_sample :
  (("close"%string ∈ listenable) /\
   (on "close" 7 three_pending).2 = None /\
   handler "close" (on "close" 7 three_pending).1 = Some 7) /\
  (("data"%string ∉ listenable) /\
   on "data" 7 three_pending =
     (three_pending, Some (JsError "event not found"))).
Proof.
  assert (Hin : "close"%string ∈ listenable).
  { unfold listenable. do 3 apply list_elem_of_further. apply list_elem_of_here. }
  assert (Hout : "data"%string ∉ listenable).
  { unfold listenable. rewrite !not_elem_of_cons.
    repeat (split; [discriminate |]). apply not_elem_of_nil. }
  split.
  - split; [exact Hin |].
    destruct (proj1 (on_stores_or_throws "close" 7 three_pending) Hin)
      as (H1 & H2 & _).
    split; [exact H1 | exact H2].
  - split; [exact Hout |].
    exact (proj2 (on_stores_or_throws "data" 7 three_pending) Hout).
Defined.

End examples.

(* ===================================================================== *)
(** * Further properties of the connection *)
(* ===================================================================== *)

Section more_base_facts.
Context {Message CodecState : Type} {codec : Codec Message CodecState}.

Implicit Types (b : Base Message CodecState) (p : nat) (q : list callback).
Implicit Types (t s : list (effect Message)).

(** ** What only the constructor and [on] set *)

Lemma shell_settle p v b : shell (settle p v b) = shell b.
Proof. unfold settle. destruct (promises b !! p) as [[| |] |]; reflexivity. Qed.

Lemma shell_deliver ms : forall b, shell (deliver ms b).1 = shell b.
Proof.
  induction ms as [| m ms IH]; intros b; cbn [deliver]; [reflexivity |].
  destruct (callbacks b) as [| [p] q]; [reflexivity |].
  rewrite IH. cbn [call]. rewrite shell_settle. reflexivity.
Qed.

Lemma shell_on_data data b : shell (on_data data b).1 = shell b.
Proof.
  unfold on_data. cbn [protocol with_protocol].
  destruct (codec_parse _) as [[ms |] st]; [| reflexivity].
  rewrite shell_deliver. reflexivity.
Qed.

Lemma shell_command parameters b : shell (command parameters b).2 = shell b.
Proof.
  unfold command. destruct (codec_encode parameters); cbn [snd];
    [reflexivity |]. rewrite shell_settle. reflexivity.
Qed.

Lemma shell_on_connect b : shell (on_connect b) = shell b.
Proof. unfold on_connect. destruct (handle_connect b); reflexivity. Qed.

Lemma shell_on_timeout b : shell (on_timeout b) = shell b.
Proof. unfold on_timeout. destruct (handle_timeout b); reflexivity. Qed.

Lemma shell_on_error err b : shell (on_error err b) = shell b.
Proof. unfold on_error. destruct (handle_error b); reflexivity. Qed.

Lemma shell_on_close had_error b : shell (on_close had_error b) = shell b.
Proof. unfold on_close. destruct (handle_close b); reflexivity. Qed.

Lemma shell_auth_catch err b : shell (auth_catch err b) = shell b.
Proof.
  unfold auth_catch. change (shell (emit End (on_error err b)))
    with (shell (on_error err b)). apply shell_on_error.
Qed.

Lemma shell_auth_resume b : shell (auth_resume b) = shell b.
Proof.
  unfold auth_resume. destruct (awaited b) as [p |]; [| reflexivity].
  destruct (promises b !! p) as [[| m | e] |]; try reflexivity.
  - destruct (instanceof_Error m); [| reflexivity].
    rewrite shell_auth_catch. reflexivity.
  - rewrite shell_auth_catch. reflexivity.
Qed.

Lemma shell_auth options b : shell (auth options b) = shell b.
Proof.
  unfold auth.
  destruct (username options) as [u |], (password options) as [pw |];
    try apply shell_auth_catch;
    match goal with
    | |- context [command ?ps b] =>
      pose proof (shell_command ps b) as Hc;
      destruct (command ps b) as [p b']; exact Hc
    end.
Qed.



Lemma shell_handler name b b' :
  shell b' = shell b -> handler name b' = handler name b.
Proof.
  unfold shell, handler. intros [= _ _ -> -> -> ->]. reflexivity.
Qed.

Lemma step_shell e b :
  (forall name l, e <> CallOn name l) -> shell (step e b).1 = shell b.
Proof.
  intros Hon.
  destruct e as [ps | name l | | | | err | had_error | data |]; cbn [step fst].
  - apply shell_command.
  - now destruct (Hon name l).
  - reflexivity.
  - apply shell_on_connect.
  - apply shell_on_timeout.
  - apply shell_on_error.
  - apply shell_on_close.
  - apply shell_on_data.
  - apply shell_auth_resume.
Qed.



Lemma constructor_shell uuid o :
  shell (constructor uuid o) =
  (uuid,
   {| tls := options_tls o;
      host := host_or_default (options_host o);
      port := port_or_default (options_port o);
      timeout := options_timeout o |},
   (None, None, None, None)).
Proof.
  unfold constructor.
  set (b0 := match options_timeout o with Some _ => _ | None => _ end).
  assert (Hb0 : shell b0 =
                (uuid,
                 {| tls := options_tls o;
                    host := host_or_default (options_host o);
                    port := port_or_default (options_port o);
                    timeout := options_timeout o |},
                 (None, None, None, None)))
    by (subst b0; destruct (options_timeout o); reflexivity).
  destruct (options_username o) as [u |]; [rewrite shell_auth; exact Hb0 |].
  destruct (options_password o) as [pw |]; [rewrite shell_auth |]; exact Hb0.
Qed.


(** ** Listeners *)

Lemma on_handler name n l b :
  name ∈ listenable ->
  handler name (on n l b).1 = if decide (n = name) then Some l else handler name b.
Proof.
  unfold listenable. intros Hin. rewrite !elem_of_cons, elem_of_nil in Hin.
  destruct Hin as [-> | [-> | [-> | [-> | []]]]];
    unfold on, handler; repeat case_decide; try done; congruence.
Qed.

Lemma run_handler name es :
  name ∈ listenable ->
  forall b, handler name (run es b).1 = last_registered name es (handler name b).
Proof.
  intros Hin. induction es as [| e es IH]; intros b; [reflexivity |].
  rewrite run_cons. cbn [fst]. rewrite IH.
  destruct e as [ps | n l | | | | err | had_error | data |];
    cbn [last_registered];
    try (f_equal; apply shell_handler, step_shell; intros; discriminate).
  cbn [step]. rewrite on_handler by assumption. reflexivity.
Qed.

Lemma constructor_handler name uuid o : handler name (constructor uuid o) = None.
Proof.
  pose proof (constructor_shell uuid o) as Hs. unfold shell in Hs.
  injection Hs as _ _ H1 H2 H3 H4.
  unfold handler. rewrite H1, H2, H3, H4. repeat case_decide; reflexivity.
Qed.

Lemma handler_slots b :
  handler "connect" b = handle_connect b /\
  handler "timeout" b = handle_timeout b /\
  handler "error" b = handle_error b /\
  handler "close" b = handle_close b.
Proof. repeat split. Qed.

(** X2: after any run of a connection, each socket event reaches the
    listener that the last call of [on] for that event handed over, with
    the argument of the event, and no other listener.  While no listener
    was ever registered, 'connect' and 'close' do nothing, 'error' is
    logged to the console and 'timeout' ends the socket; a registered
    timeout listener replaces the ending of the socket. *)
Theorem socket_events_reach_last_listener uuid o es err had_error :
  trace (on_connect (run es (constructor uuid o)).1) =
    trace (run es (constructor uuid o)).1 ++
    match last_registered "connect" es None with
    | Some l => [Invoke l NoArgument]
    | None => []
    end /\
  trace (on_timeout (run es (constructor uuid o)).1) =
    trace (run es (constructor uuid o)).1 ++
    match last_registered "timeout" es None with
    | Some l => [Invoke l NoArgument]
    | None => [End]
    end /\
  trace (on_error err (run es (constructor uuid o)).1) =
    trace (run es (constructor uuid o)).1 ++
    match last_registered "error" es None with
    | Some l => [Invoke l (ErrorArgument err)]
    | None => [ConsoleLog err]
    end /\
  trace (on_close had_error (run es (constructor uuid o)).1) =
    trace (run es (constructor uuid o)).1 ++
    match last_registered "close" es None with
    | Some l => [Invoke l (BoolArgument had_error)]
    | None => []
    end.
Proof.
  set (b := (run es (constructor uuid o)).1).
  assert (H : forall name, name ∈ listenable ->
                handler name b = last_registered name es None).
  { intros name Hin. subst b. rewrite run_handler by assumption.
    rewrite constructor_handler. reflexivity. }
  destruct (handler_slots b) as (H1 & H2 & H3 & H4).
  unfold listenable in H.
  rewrite <- (H "connect"%string), <- (H "timeout"%string),
    <- (H "error"%string), <- (H "close"%string), H1, H2, H3, H4
    by (rewrite !elem_of_cons; auto 6).
  unfold on_connect, on_timeout, on_error, on_close.
  destruct (handle_connect b), (handle_timeout b), (handle_error b),
    (handle_close b); cbn [trace emit close]; rewrite ?app_nil_r; done.
Qed.

(** ** Promises *)

Lemma command_settled parameters p v b :
  promises b !! p = Some v -> v <> Pending ->
  promises (command parameters b).2 !! p = Some v.
Proof.
  intros H Hv. unfold command.
  assert (H' : (promises b ++ [Pending]) !! p = Some v)
    by (rewrite lookup_app_l; [exact H | eapply lookup_lt_Some, H]).
  destruct (codec_encode parameters); cbn [snd]; [exact H' |].
  eapply settle_settled; [exact H' | exact Hv].
Qed.

Lemma step_settled e p v b :
  promises b !! p = Some v -> v <> Pending ->
  promises (step e b).1 !! p = Some v.
Proof.
  intros H Hv.
  assert (Hq : forall f, quiet f -> promises (f b) !! p = Some v).
  { intros f Hf. destruct (Hf b) as (_ & _ & ->). exact H. }
  destruct e as [ps | name l | | | | err | had_error | data |]; cbn [step fst].
  - apply command_settled; assumption.
  - apply (Hq _ (quiet_on name l)).
  - apply (Hq _ quiet_close).
  - apply (Hq _ quiet_on_connect).
  - apply (Hq _ quiet_on_timeout).
  - apply (Hq _ (quiet_on_error err)).
  - apply (Hq _ (quiet_on_close had_error)).
  - unfold on_data. cbn [protocol with_protocol].
    destruct (codec_parse _) as [[ms |] st]; [| exact H].
    apply deliver_settled; assumption.
  - apply (Hq _ quiet_auth_resume).
Qed.

(** X3: a promise settles once.  Whatever happens to the connection
    afterwards (further replies, surplus or repeated ones included,
    commands, socket events), a promise that is resolved or rejected keeps
    its outcome and its value. *)
Theorem settled_is_final es :
  forall b p v,
    promises b !! p = Some v -> v <> Pending ->
    promises (run es b).1 !! p = Some v.
Proof.
  induction es as [| e es IH]; intros b p v H Hv; [exact H |].
  rewrite run_cons. cbn [fst]. apply IH; [| exact Hv].
  apply step_settled; assumption.
Qed.

(** ** What is written to the socket *)

Lemma written_app t s : written (t ++ s) = written t ++ written s.
Proof.
  induction t as [| e t IH]; [reflexivity |].
  destruct e; cbn [app written]; rewrite IH; reflexivity.
Qed.

Lemma ended_app t s : ended (t ++ s) = ended t + ended s.
Proof.
  induction t as [| e t IH]; [reflexivity |].
  destruct e; cbn [app ended]; rewrite IH; reflexivity.
Qed.

Lemma command_written parameters b :
  written (trace (command parameters b).2) =
  written (trace b) ++ option_list (codec_encode parameters).
Proof.
  unfold command. destruct (codec_encode parameters) as [data |]; cbn [snd].
  - cbn [trace emit with_callbacks with_promises].
    rewrite !written_app. cbn. rewrite app_nil_r. reflexivity.
  - rewrite settle_trace. cbn [trace emit with_callbacks with_promises].
    rewrite written_app. reflexivity.
Qed.

Lemma auth_catch_exact err b :
  trace (auth_catch err b) = trace b ++ [reported err b; End].
Proof.
  unfold auth_catch, on_error, reported.
  destruct (handle_error b); cbn [trace emit]; rewrite <- app_assoc; reflexivity.
Qed.

Lemma auth_resume_written b :
  written (trace (auth_resume b)) = written (trace b) /\
  (ended (trace (auth_resume b)) = ended (trace b) \/
   ended (trace (auth_resume b)) = S (ended (trace b))).
Proof.
  assert (Hcatch : forall err b', trace b' = trace b ->
            written (trace (auth_catch err b')) = written (trace b) /\
            (ended (trace (auth_catch err b')) = ended (trace b) \/
             ended (trace (auth_catch err b')) = S (ended (trace b)))).
  { intros err b' Hb'. rewrite auth_catch_exact, Hb'. split.
    - rewrite written_app. unfold reported.
      destruct (handle_error b'); cbn; rewrite app_nil_r; reflexivity.
    - right. rewrite ended_app. unfold reported.
      destruct (handle_error b'); cbn; lia. }
  unfold auth_resume. destruct (awaited b) as [p |]; [| auto].
  destruct (promises b !! p) as [[| m | e] |]; auto.
  destruct (instanceof_Error m); auto.
Qed.

Lemma step_written e b :
  written (trace (step e b).1) =
  written (trace b) ++
  match e with
  | CallCommand ps => option_list (codec_encode ps)
  | _ => []
  end.
Proof.
  destruct e as [ps | name l | | | | err | had_error | data |]; cbn [step fst];
    rewrite ?app_nil_r.
  - apply command_written.
  - unfold on. repeat case_decide; reflexivity.
  - cbn. rewrite written_app. cbn. apply app_nil_r.
  - unfold on_connect. destruct (handle_connect b); [| reflexivity].
    cbn. rewrite written_app. cbn. apply app_nil_r.
  - unfold on_timeout. destruct (handle_timeout b);
      cbn; rewrite written_app; cbn; apply app_nil_r.
  - unfold on_error. destruct (handle_error b);
      cbn; rewrite written_app; cbn; apply app_nil_r.
  - unfold on_close. destruct (handle_close b); [| reflexivity].
    cbn. rewrite written_app. cbn. apply app_nil_r.
  - unfold on_data. cbn [protocol with_protocol].
    destruct (codec_parse _) as [[ms |] st]; [| reflexivity].
    rewrite deliver_trace. reflexivity.
  - apply auth_resume_written.
Qed.

Lemma run_written es :
  forall b, written (trace (run es b).1) =
            written (trace b) ++ omap codec_encode (commands_of es).
Proof.
  induction es as [| e es IH]; intros b.
  - cbn. rewrite app_nil_r. reflexivity.
  - rewrite run_cons. cbn [fst]. rewrite IH, step_written, <- app_assoc.
    f_equal. destruct e; try reflexivity.
    cbn [commands_of omap list_omap]. destruct (codec_encode parameters); reflexivity.
Qed.

Lemma constructor_written uuid o :
  written (trace (constructor uuid o)) =
  omap codec_encode (option_list (auth_shape o)).
Proof.
  unfold constructor.
  set (b0 := match options_timeout o with Some _ => _ | None => _ end).
  assert (Hb0 : trace b0 = [])
    by (subst b0; destruct (options_timeout o); reflexivity).
  assert (Hauth : forall ps,
            written (trace (let '(p, b) := command ps b0 in
                            with_awaited (Some p) b)) =
            omap codec_encode [ps]).
  { intros ps. pose proof (command_written ps b0) as Hc. rewrite Hb0 in Hc.
    destruct (command ps b0) as [p b']. cbn [snd] in Hc.
    cbn [omap list_omap]. change (trace (with_awaited (Some p) b')) with (trace b').
    rewrite Hc. destruct (codec_encode ps); reflexivity. }
  unfold auth_shape, auth. cbn [username password].
  destruct (options_username o) as [u |], (options_password o) as [pw |];
    cbn [option_list]; try apply Hauth.
  rewrite Hb0. reflexivity.
Qed.

(** X4: the bytes written to the socket in any run of a connection are
    the encodings of the commands issued, the AUTH of the constructor
    first, in issue order, one write per command; a command whose
    parameters do not encode writes nothing, and nothing else ever writes
    (no listener call, reply, socket event or authentication failure). *)
Theorem written_is_encoded_commands uuid o es :
  written (trace (run es (constructor uuid o)).1) =
  omap codec_encode (option_list (auth_shape o) ++ commands_of es).
Proof. rewrite run_written, constructor_written, omap_app. reflexivity. Qed.

(** ** The data handler, whatever the queue holds *)

Lemma deliver_drop ms :
  forall b, callbacks (deliver ms b).1 = drop (length ms) (callbacks b).
Proof.
  induction ms as [| m ms IH]; intros b; cbn [deliver]; [reflexivity |].
  destruct (callbacks b) as [| cb q] eqn:E; [exact E |].
  rewrite IH, call_callbacks. reflexivity.
Qed.

Lemma deliver_length ms :
  forall b, length (promises (deliver ms b).1) = length (promises b).
Proof.
  induction ms as [| m ms IH]; intros b; cbn [deliver]; [reflexivity |].
  destruct (callbacks b) as [| [p] q]; [reflexivity |].
  rewrite IH, call_promises. apply settle_length.
Qed.

Lemma awaited_settle p v b : awaited (settle p v b) = awaited b.
Proof. unfold settle. destruct (promises b !! p) as [[| |] |]; reflexivity. Qed.

Lemma awaited_deliver ms : forall b, awaited (deliver ms b).1 = awaited b.
Proof.
  induction ms as [| m ms IH]; intros b; cbn [deliver]; [reflexivity |].
  destruct (callbacks b) as [| [p] q]; [reflexivity |].
  rewrite IH. cbn [call]. rewrite awaited_settle. reflexivity.
Qed.

Lemma on_data_frame data b :
  trace (on_data data b).1 = trace b /\
  callbacks (on_data data b).1 `suffix_of` callbacks b /\
  length (promises (on_data data b).1) = length (promises b) /\
  shell (on_data data b).1 = shell b /\
  awaited (on_data data b).1 = awaited b.
Proof.
  split; [| split; [| split; [| split; [apply shell_on_data |]]]];
    unfold on_data; cbn [protocol with_protocol];
    destruct (codec_parse _) as [[ms |] st]; try done.
  - rewrite deliver_trace. reflexivity.
  - rewrite deliver_drop. apply suffix_drop.
  - rewrite deliver_length. reflexivity.
  - rewrite awaited_deliver. reflexivity.
Qed.


(** X5: the data handler only consumes.  It writes nothing to the
    socket, does not end it, calls no listener and logs nothing (the trace
    is unchanged); it creates no promise, changes no listener slot and
    adds no entry to the queue: the queue after it is a suffix of the
    queue before it.  This holds also when [parse] throws. *)
Theorem data_only_consumes data b :
  trace (on_data data b).1 = trace b /\
  callbacks (on_data data b).1 `suffix_of` callbacks b /\
  length (promises (on_data data b).1) = length (promises b) /\
  shell (on_data data b).1 = shell b /\
  awaited (on_data data b).1 = awaited b.
Proof. apply on_data_frame. Qed.

(** X6: a chunk with more replies than pending entries.  Every reply
    that [parse] returns is taken out of the decoder, whether or not an
    entry waits for it; the replies that find an entry settle it, each at
    its position, and the queue loses as many entries as there are replies
    (all of them when there are fewer): the surplus replies are kept
    nowhere. *)
Theorem replies_beyond_queue b data ms st :
  codec_parse (codec_write data (protocol b)) = (Some ms, st) ->
  NoDup (callbacks b) ->
  protocol (on_data data b).1 = st /\
  callbacks (on_data data b).1 = drop (length ms) (callbacks b) /\
  (forall i p m,
     callbacks b !! i = Some (Settle p) -> ms !! i = Some m ->
     promises b !! p = Some Pending ->
     promises (on_data data b).1 !! p = Some (Resolved m)).
Proof.
  intros Hparse Hnd. rewrite (on_data_parsed _ _ _ _ Hparse).
  set (b0 := with_protocol st _).
  split; [rewrite deliver_protocol; reflexivity |].
  split; [rewrite deliver_drop; reflexivity |].
  apply (deliver_positions ms b0 Hnd).
Qed.

(** ** The reply to AUTH *)

Lemma awaited_auth_catch err b : awaited (auth_catch err b) = awaited b.
Proof. unfold auth_catch, on_error. destruct (handle_error b); reflexivity. Qed.

(** X7: what the reply to AUTH decides.  When the entry of the suspended
    [auth] heads the queue and a chunk brings its reply, the reply
    resolves the promise, error or not; once [auth] resumes, a reply that
    is an Error is reported as the 'error' event (to the error listener,
    or to the console when there is none) and the socket is ended, in that
    order, and any other reply leaves no trace at all. *)
Theorem auth_reply_decides b data p q m ms st :
  awaited b = Some p ->
  callbacks b = Settle p :: q ->
  promises b !! p = Some Pending ->
  codec_parse (codec_write data (protocol b)) = (Some (m :: ms), st) ->
  awaited (auth_resume (on_data data b).1) = None /\
  promises (auth_resume (on_data data b).1) !! p = Some (Resolved m) /\
  trace (auth_resume (on_data data b).1) =
    trace b ++
    (if instanceof_Error m
     then [match handle_error b with
           | Some l => Invoke l (ErrorArgument (Thrown m))
           | None => ConsoleLog (Thrown m)
           end; End]
     else []).
Proof.
  intros Haw Hq Hp Hparse.
  destruct (on_data_frame data b) as (Htr & _ & _ & Hsh & Haw').
  assert (Herr : handle_error (on_data data b).1 = handle_error b)
    by (unfold shell in Hsh; congruence).
  assert (Hres : promises (on_data data b).1 !! p = Some (Resolved m)).
  { rewrite (on_data_parsed _ _ _ _ Hparse).
    set (b0 := with_protocol st _).
    rewrite (deliver_cons m ms (Settle p) q b0 Hq).
    apply deliver_settled; [discriminate |].
    rewrite call_promises. apply settle_pending. exact Hp. }
  set (b1 := (on_data data b).1) in *.
  unfold auth_resume. rewrite Haw', Haw, Hres.
  destruct (instanceof_Error m).
  - rewrite awaited_auth_catch, auth_catch_exact.
    destruct (quiet_auth_catch (Thrown m) (with_awaited None b1)) as (_ & _ & ->).
    unfold reported. cbn [awaited promises trace handle_error with_awaited].
    rewrite Htr, Herr. done.
  - cbn [awaited promises trace with_awaited]. rewrite Htr, app_nil_r. done.
Qed.

(** [auth] resumes once.  Resuming it again after it has run to its
    end changes nothing, so a failed authentication is reported once and
    ends the socket once; while the awaited promise is pending, resuming
    does nothing at all. *)
Lemma auth_resume_once b :
  auth_resume (auth_resume b) = auth_resume b /\
  (forall p, awaited b = Some p -> promises b !! p = Some Pending ->
     auth_resume b = b).
Proof.
  assert (Hdone : forall b', awaited b' = None -> auth_resume b' = b').
  { intros b' H. unfold auth_resume. rewrite H. reflexivity. }
  split.
  - destruct (awaited b) as [p |] eqn:Ha; [| rewrite !(Hdone b Ha); reflexivity].
    assert (Hr : auth_resume b =
                 match promises b !! p with
                 | Some (Resolved m) =>
                   if instanceof_Error m
                   then auth_catch (Thrown m) (with_awaited None b)
                   else with_awaited None b
                 | Some (Rejected e) => auth_catch e (with_awaited None b)
                 | _ => b
                 end)
      by (unfold auth_resume; rewrite Ha; reflexivity).
    destruct (promises b !! p) as [[| m | e] |] eqn:Hp.
    + rewrite !Hr. reflexivity.
    + destruct (instanceof_Error m); rewrite Hr; apply Hdone;
        [apply awaited_auth_catch | reflexivity].
    + rewrite Hr. apply Hdone, awaited_auth_catch.
    + rewrite !Hr. reflexivity.
  - intros p Ha Hp. unfold auth_resume. rewrite Ha, Hp. reflexivity.
Qed.

(** ** [close()] *)

Lemma settle_emit e p v b : settle p v (emit e b) = emit e (settle p v b).
Proof.
  unfold settle. change (promises (emit e b)) with (promises b).
  destruct (promises b !! p) as [[| |] |]; reflexivity.
Qed.

Lemma deliver_emit e ms :
  forall b, deliver ms (emit e b) = (emit e (deliver ms b).1, (deliver ms b).2).
Proof.
  induction ms as [| m ms IH]; intros b; cbn [deliver]; [reflexivity |].
  change (callbacks (emit e b)) with (callbacks b).
  destruct (callbacks b) as [| [p] q]; [reflexivity |].
  rewrite <- IH. f_equal. cbn [call].
  change (with_callbacks q (emit e b)) with (emit e (with_callbacks q b)).
  apply settle_emit.
Qed.

(** X8: [close()] only ends the socket; the connection object goes on
    working.  Replies that arrive after it are delivered exactly as they
    would have been without it, and a command issued after it is still
    queued and still written to the socket: nothing guards against use
    after [close()]. *)
Theorem close_is_only_socket_end parameters data b :
  on_data data (close b) = (close (on_data data b).1, (on_data data b).2) /\
  callbacks (command parameters (close b)).2 =
    callbacks b ++ [Settle (length (promises b))] /\
  written (trace (command parameters (close b)).2) =
    written (trace b) ++ option_list (codec_encode parameters) /\
  callbacks (close b) = callbacks b /\ promises (close b) = promises b.
Proof.
  split; [| split; [| split]].
  - unfold close, on_data. cbn [protocol with_protocol emit].
    destruct (codec_parse _) as [[ms |] st]; [| reflexivity].
    rewrite <- deliver_emit. reflexivity.
  - unfold command. destruct (codec_encode parameters); cbn [snd];
      rewrite ?settle_callbacks; reflexivity.
  - rewrite command_written. unfold close. cbn [trace emit].
    rewrite written_app. cbn. rewrite app_nil_r. reflexivity.
  - done.
Qed.

(** ** Pipelining *)

Lemma command_promises parameters b :
  promises (command parameters b).2 =
  promises b ++ [match codec_encode parameters with
                 | Some _ => Pending
                 | None => Rejected EncodeError
                 end].
Proof.
  unfold command. destruct (codec_encode parameters); cbn [snd]; [reflexivity |].
  rewrite settle_promises.
  cbn [promises callbacks trace emit with_callbacks with_promises].
  rewrite lookup_app_r, Nat.sub_diag by lia. cbn [lookup list_lookup].
  rewrite insert_app_r_alt, Nat.sub_diag by lia. reflexivity.
Qed.

Lemma command_callbacks parameters b :
  callbacks (command parameters b).2 =
  callbacks b ++ [Settle (length (promises b))].
Proof.
  unfold command. destruct (codec_encode parameters); cbn [snd];
    rewrite ?settle_callbacks; reflexivity.
Qed.

Lemma command_protocol parameters b :
  protocol (command parameters b).2 = protocol b.
Proof.
  unfold command. destruct (codec_encode parameters); cbn [snd];
    rewrite ?settle_protocol; reflexivity.
Qed.

(** X9: any number of commands can be issued before a reply arrives.
    Each call, whether or not its parameters encode, appends one entry to
    the queue and makes one promise, in issue order: pending when the
    parameters encode, rejected at once when they do not.  The calls
    raise nothing and leave the decoder alone. *)
Theorem pipelined_commands_queue_in_order cmds :
  forall b,
    callbacks (run (CallCommand <$> cmds) b).1 =
      callbacks b ++ (Settle <$> seq (length (promises b)) (length cmds)) /\
    promises (run (CallCommand <$> cmds) b).1 =
      promises b ++
      ((fun ps => match codec_encode ps with
                  | Some _ => Pending
                  | None => Rejected EncodeError
                  end) <$> cmds) /\
    protocol (run (CallCommand <$> cmds) b).1 = protocol b /\
    (run (CallCommand <$> cmds) b).2 = [].
Proof.
  induction cmds as [| ps cmds IH]; intros b.
  - cbn. rewrite !app_nil_r. done.
  - cbn [fmap list_fmap]. rewrite run_cons. cbn [step fst snd option_list app].
    destruct (IH (command ps b).2) as (H1 & H2 & H3 & H4).
    rewrite H1, H2, H3, H4, command_callbacks, command_promises,
      command_protocol, length_app, <- !app_assoc.
    cbn [length seq fmap list_fmap app].
    replace (length (promises b) + 1) with (S (length (promises b))) by lia.
    done.
Qed.

(** ** When the socket is ended *)

Lemma step_ended e b :
  may_end e = false -> ended (trace (step e b).1) = ended (trace b).
Proof.
  intros He.
  destruct e as [ps | name l | | | | err | had_error | data |];
    try discriminate He; cbn [step fst].
  - unfold command. destruct (codec_encode ps); cbn [snd];
      rewrite ?settle_trace; cbn [trace emit with_callbacks with_promises];
      rewrite !ended_app; cbn; lia.
  - unfold on. repeat case_decide; reflexivity.
  - unfold on_connect. destruct (handle_connect b); [| reflexivity].
    cbn. rewrite ended_app. cbn. lia.
  - unfold on_error. destruct (handle_error b);
      cbn; rewrite ended_app; cbn; lia.
  - unfold on_close. destruct (handle_close b); [| reflexivity].
    cbn. rewrite ended_app. cbn. lia.
  - apply (f_equal ended), on_data_frame.
Qed.

Lemma constructor_trace_shape uuid o :
  Forall (fun e => (exists p, e = Push p) \/ (exists data, e = Write data))
         (trace (constructor uuid o)).
Proof.
  unfold constructor.
  set (b0 := match options_timeout o with Some _ => _ | None => _ end).
  assert (Hb0 : trace b0 = [])
    by (subst b0; destruct (options_timeout o); reflexivity).
  assert (Hauth : forall ps,
            Forall (fun e => (exists p, e = Push p) \/ (exists data, e = Write data))
                   (trace (let '(p, b) := command ps b0 in
                           with_awaited (Some p) b))).
  { intros ps. destruct (command_trace ps b0) as (w & Hw & Hshape).
    destruct (command ps b0) as [p b']. cbn [fst snd] in Hw.
    change (trace (with_awaited (Some p) b')) with (trace b').
    rewrite Hw, Hb0. cbn [app]. constructor; [left; eauto |].
    destruct Hshape as [-> | [data ->]]; [constructor |].
    constructor; [right; eauto | constructor]. }
  unfold auth. cbn [username password].
  destruct (options_username o) as [u |], (options_password o) as [pw |];
    try apply Hauth.
  rewrite Hb0. constructor.
Qed.

(** X10: constructing a connection only pushes and writes: it never
    reports an error and never ends the socket, so the "Invalid AUTH
    options" branch of [auth] cannot be reached from the constructor.
    Afterwards the socket is ended only by [close()], by a timeout or when
    [auth] resumes: a run without these three never calls [socket.end],
    whatever replies, socket errors, close events or parse failures it
    sees. *)
Theorem socket_end_needs_a_cause uuid o es :
  forallb (fun e => negb (may_end e)) es = true ->
  ended (trace (run es (constructor uuid o)).1) = 0 /\
  Forall (fun e => (exists p, e = Push p) \/ (exists data, e = Write data))
         (trace (constructor uuid o)).
Proof.
  intros Hes. split; [| apply constructor_trace_shape].
  assert (H0 : ended (trace (constructor uuid o)) = 0).
  { induction (constructor_trace_shape uuid o) as [| e t [[p ->] | [d ->]] _ IH];
      [reflexivity | exact IH | exact IH]. }
  revert Hes H0. generalize (constructor uuid o).
  induction es as [| e es IH]; intros b Hes H0; [exact H0 |].
  cbn [forallb] in Hes. apply andb_prop in Hes as [He Hes].
  rewrite run_cons. cbn [fst]. apply IH; [exact Hes |].
  rewrite step_ended; [exact H0 |]. now destruct (may_end e).
Qed.

(** ** A reply for an entry that is already settled *)

(** X11: a call of [command] whose parameters do not encode puts the
    pairing off by one.  Its entry stays in the queue with its promise
    already rejected; the reply to the next command is spent on that entry
    and changes nothing, so the next command stays pending with its entry
    still queued, although its reply has arrived and raised nothing. *)
Theorem failed_encode_shifts_pairing b bad good data w m st :
  callbacks b = [] ->
  codec_encode bad = None ->
  codec_encode good = Some w ->
  codec_parse (codec_write data (protocol b)) = (Some [m], st) ->
  promises (on_data data (command good (command bad b).2).2).1 =
    promises b ++ [Rejected EncodeError; Pending] /\
  callbacks (on_data data (command good (command bad b).2).2).1 =
    [Settle (S (length (promises b)))] /\
  (on_data data (command good (command bad b).2).2).2 = None.
Proof.
  intros Hq Hbad Hgood Hparse.
  set (b1 := (command bad b).2). set (b2 := (command good b1).2).
  assert (Hp1 : promises b1 = promises b ++ [Rejected EncodeError])
    by (subst b1; rewrite command_promises, Hbad; reflexivity).
  assert (Hp2 : promises b2 = promises b ++ [Rejected EncodeError; Pending]).
  { subst b2. rewrite command_promises, Hgood, Hp1, <- app_assoc. reflexivity. }
  assert (Hq2 : callbacks b2 =
                [Settle (length (promises b)); Settle (S (length (promises b)))]).
  { subst b2 b1. rewrite !command_callbacks, Hq, command_promises, length_app.
    cbn. do 3 f_equal. lia. }
  assert (Hpr : protocol b2 = protocol b)
    by (subst b2 b1; rewrite !command_protocol; reflexivity).
  rewrite <- Hpr in Hparse. rewrite (on_data_parsed _ _ _ _ Hparse).
  set (b0 := with_protocol st _).
  assert (Hq0 : callbacks b0 =
                Settle (length (promises b)) :: [Settle (S (length (promises b)))])
    by exact Hq2.
  rewrite (deliver_cons m [] _ _ b0 Hq0). cbn [deliver fst snd].
  rewrite call_callbacks, call_promises, settle_promises.
  change (promises b0) with (promises b2). rewrite Hp2.
  rewrite lookup_app_r, Nat.sub_diag by lia. done.
Qed.

(** ** The order of the queue *)

Lemma ascending_weaken lo lo' q hi :
  lo' <= lo -> ascending lo q hi -> ascending lo' q hi.
Proof. destruct q as [| [p] q]; cbn; intros; [lia | split; [lia | tauto]]. Qed.

Lemma ascending_raise q : forall lo hi hi',
  hi <= hi' -> ascending lo q hi -> ascending lo q hi'.
Proof.
  induction q as [| [p] q IH]; cbn; intros lo hi hi' Hle H; [lia |].
  split; [tauto |]. eapply IH; [exact Hle | tauto].
Qed.

Lemma ascending_snoc q : forall lo hi,
  ascending lo q hi -> ascending lo (q ++ [Settle hi]) (S hi).
Proof.
  induction q as [| [p] q IH]; cbn; intros lo hi H; [lia |].
  split; [tauto |]. apply IH. tauto.
Qed.

Lemma ascending_lookup q : forall lo hi i p,
  ascending lo q hi -> q !! i = Some (Settle p) -> lo <= p < hi.
Proof.
  induction q as [| [p0] q IH]; intros lo hi i p H Hi; [discriminate |].
  destruct H as [Hlo H]. destruct i as [| i]; cbn in Hi.
  - injection Hi as ->. destruct q as [| [p1] q]; cbn in H; [lia |].
    destruct H as [H1 H2]. specialize (IH (S p) hi 0 p1 (conj H1 H2) eq_refl).
    lia.
  - specialize (IH (S p0) hi i p H Hi). lia.
Qed.

Lemma ascending_pair q : forall lo hi i j p p',
  ascending lo q hi -> i < j ->
  q !! i = Some (Settle p) -> q !! j = Some (Settle p') -> p < p'.
Proof.
  induction q as [| [p0] q IH]; intros lo hi i j p p' H Hij Hi Hj;
    [discriminate |].
  destruct H as [Hlo H]. destruct j as [| j]; [lia |]. cbn in Hj.
  destruct i as [| i]; cbn in Hi.
  - injection Hi as ->. pose proof (ascending_lookup _ _ _ _ _ H Hj). lia.
  - apply (IH (S p0) hi i j p p' H); [lia | assumption ..].
Qed.

Lemma ascending_deliver ms :
  forall b, ascending 0 (callbacks b) (length (promises b)) ->
    ascending 0 (callbacks (deliver ms b).1) (length (promises (deliver ms b).1)).
Proof.
  induction ms as [| m ms IH]; intros b Hb; cbn [deliver]; [exact Hb |].
  destruct (callbacks b) as [| [p] q] eqn:E; [cbn [fst]; rewrite E; exact Hb |].
  apply IH. rewrite call_callbacks, call_promises, settle_length.
  destruct Hb as [_ Hb]. eapply ascending_weaken; [| exact Hb]. lia.
Qed.

Lemma ascending_step e b :
  ascending 0 (callbacks b) (length (promises b)) ->
  ascending 0 (callbacks (step e b).1) (length (promises (step e b).1)).
Proof.
  intros Hb.
  assert (Hq : forall f, quiet f ->
            ascending 0 (callbacks (f b)) (length (promises (f b)))).
  { intros f Hf. destruct (Hf b) as (_ & -> & ->). exact Hb. }
  destruct e as [ps | name l | | | | err | had_error | data |]; cbn [step fst].
  - rewrite command_callbacks, command_promises, length_app. cbn [length].
    rewrite Nat.add_1_r. apply ascending_snoc, Hb.
  - apply (Hq _ (quiet_on name l)).
  - apply (Hq _ quiet_close).
  - apply (Hq _ quiet_on_connect).
  - apply (Hq _ quiet_on_timeout).
  - apply (Hq _ (quiet_on_error err)).
  - apply (Hq _ (quiet_on_close had_error)).
  - unfold on_data. cbn [protocol with_protocol].
    destruct (codec_parse _) as [[ms |] st]; [| exact Hb].
    apply ascending_deliver. exact Hb.
  - apply (Hq _ quiet_auth_resume).
Qed.

Lemma ascending_run es :
  forall b, ascending 0 (callbacks b) (length (promises b)) ->
    ascending 0 (callbacks (run es b).1) (length (promises (run es b).1)).
Proof.
  induction es as [| e es IH]; intros b Hb; [exact Hb |].
  rewrite run_cons. cbn [fst]. apply IH, ascending_step, Hb.
Qed.

Lemma ascending_constructor uuid o :
  ascending 0 (callbacks (constructor uuid o))
            (length (promises (constructor uuid o))).
Proof.
  unfold constructor.
  set (b0 := match options_timeout o with Some _ => _ | None => _ end).
  assert (Hb0 : ascending 0 (callbacks b0) (length (promises b0)))
    by (subst b0; destruct (options_timeout o); cbn; lia).
  assert (Hauth : forall ps,
            let b' := (let '(p, b) := command ps b0 in with_awaited (Some p) b) in
            ascending 0 (callbacks b') (length (promises b'))).
  { intros ps. pose proof (ascending_step (CallCommand ps) b0 Hb0) as Hc.
    cbn [step fst] in Hc. destruct (command ps b0) as [p b']. exact Hc. }
  unfold auth. cbn [username password].
  destruct (options_username o) as [u |], (options_password o) as [pw |];
    try apply Hauth; try exact Hb0.
Qed.

(** X12: the queue keeps the issue order.  In every state a run of a
    connection reaches, every entry of the queue, a lone one included,
    belongs to a promise that exists, and the pending entries stand in the
    order in which their commands were issued: an entry further back in
    the queue belongs to a promise made later. *)
Theorem queue_keeps_issue_order uuid o es :
  (forall i p,
     callbacks (run es (constructor uuid o)).1 !! i = Some (Settle p) ->
     p < length (promises (run es (constructor uuid o)).1)) /\
  (forall i j p p',
     i < j ->
     callbacks (run es (constructor uuid o)).1 !! i = Some (Settle p) ->
     callbacks (run es (constructor uuid o)).1 !! j = Some (Settle p') ->
     p < p').
Proof.
  pose proof (ascending_run es _ (ascending_constructor uuid o)) as Ha.
  split.
  - intros i p Hi. exact (proj2 (ascending_lookup _ _ _ _ _ Ha Hi)).
  - intros i j p p' Hij Hi Hj. eapply ascending_pair; eassumption.
Qed.

End more_base_facts.

(* ===================================================================== *)
(** * The entry is queued before the bytes are written *)
(* ===================================================================== *)

Section order_facts.
Context {Message CodecState : Type} {codec : Codec Message CodecState}.

Implicit Types (b : Base Message CodecState) (p : nat).
Implicit Types (t s : list (effect Message)).

(** The state in which [command] encodes and writes: the entry is in the
    queue, its promise is pending and the push is the last thing in the
    trace. *)
Lemma command_registered parameters b :
  exists registered,
    callbacks registered = callbacks b ++ [Settle (length (promises b))] /\
    promises registered = promises b ++ [Pending] /\
    trace registered = trace b ++ [Push (length (promises b))] /\
    (command parameters b).2 =
      match codec_encode parameters with
      | Some data => emit (Write data) registered
      | None => settle (length (promises b)) (Rejected EncodeError) registered
      end.
Proof.
  eexists. split; [| split; [| split]]; [| | | unfold command; cbn zeta;
    destruct (codec_encode parameters); reflexivity]; reflexivity.
Qed.

Lemma command_fst parameters b :
  (command parameters b).1 = length (promises b).
Proof. unfold command. destruct (codec_encode parameters); reflexivity. Qed.

Lemma step_counts e b :
  pushes (trace (step e b).1) =
    pushes (trace b) + match e with CallCommand _ => 1 | _ => 0 end /\
  length (promises (step e b).1) =
    length (promises b) + match e with CallCommand _ => 1 | _ => 0 end.
Proof.
  assert (Hq : forall f, quiet f -> length (promises (f b)) = length (promises b) + 0).
  { intros f Hf. destruct (Hf b) as (_ & _ & ->). lia. }
  destruct e as [ps | name l | | | | err | had_error | data |]; cbn [step fst].
  - split.
    + destruct (command_trace ps b) as (w & -> & [-> | [data ->]]);
        rewrite pushes_app; cbn; lia.
    + rewrite command_promises, length_app. reflexivity.
  - split; [| apply (Hq _ (quiet_on name l))].
    unfold on. repeat case_decide; cbn; lia.
  - split; [| apply (Hq _ quiet_close)]. cbn. rewrite pushes_app. cbn. lia.
  - split; [| apply (Hq _ quiet_on_connect)].
    unfold on_connect. destruct (handle_connect b); cbn;
      rewrite ?pushes_app; cbn; lia.
  - split; [| apply (Hq _ quiet_on_timeout)].
    unfold on_timeout. destruct (handle_timeout b); cbn;
      rewrite ?pushes_app; cbn; lia.
  - split; [| apply (Hq _ (quiet_on_error err))].
    unfold on_error. destruct (handle_error b); cbn;
      rewrite ?pushes_app; cbn; lia.
  - split; [| apply (Hq _ (quiet_on_close had_error))].
    unfold on_close. destruct (handle_close b); cbn;
      rewrite ?pushes_app; cbn; lia.
  - destruct (on_data_frame data b) as (-> & _ & -> & _). lia.
  - split; [| apply (Hq _ quiet_auth_resume)].
    assert (Hcatch : forall err b', trace b' = trace b ->
              pushes (trace (auth_catch err b')) = pushes (trace b) + 0).
    { intros err b' Hb'. rewrite auth_catch_exact, Hb', pushes_app.
      unfold reported. destruct (handle_error b'); cbn; lia. }
    unfold auth_resume. destruct (awaited b) as [p |]; [| lia].
    destruct (promises b !! p) as [[| m | e] |]; try lia.
    + destruct (instanceof_Error m); [apply Hcatch; reflexivity | cbn; lia].
    + apply Hcatch. reflexivity.
Qed.

Lemma step_queue e b p :
  Settle p ∈ callbacks (step e b).1 ->
  Settle p ∈ callbacks b \/
  (p = length (promises b) /\ exists ps, e = CallCommand ps).
Proof.
  assert (Hq : forall f, quiet f -> Settle p ∈ callbacks (f b) ->
            Settle p ∈ callbacks b \/
            (p = length (promises b) /\ exists ps, e = CallCommand ps)).
  { intros f Hf. destruct (Hf b) as (_ & -> & _). auto. }
  destruct e as [ps | name l | | | | err | had_error | data |]; cbn [step fst].
  - rewrite command_callbacks, elem_of_app, list_elem_of_singleton.
    intros [H | [= ->]]; [left; exact H | right; eauto].
  - apply (Hq _ (quiet_on name l)).
  - apply (Hq _ quiet_close).
  - apply (Hq _ quiet_on_connect).
  - apply (Hq _ quiet_on_timeout).
  - apply (Hq _ (quiet_on_error err)).
  - apply (Hq _ (quiet_on_close had_error)).
  - destruct (on_data_frame data b) as (_ & [k Hk] & _).
    intros H. left. rewrite Hk. apply elem_of_app. right. exact H.
  - apply (Hq _ quiet_auth_resume).
Qed.

Lemma recorded_step e b : recorded b -> recorded (step e b).1.
Proof.
  intros [Hn Hin]. destruct (step_counts e b) as [H1 H2]. split; [lia |].
  intros p Hp. destruct (step_trace e b) as (s & Hs & _).
  destruct (step_queue e b p Hp) as [Hold | [-> [ps ->]]].
  - rewrite Hs. apply elem_of_app. left. apply Hin, Hold.
  - cbn [step fst]. destruct (command_trace ps b) as (w & -> & _).
    rewrite command_fst. apply elem_of_app. right. apply list_elem_of_here.
Qed.

Lemma recorded_run es : forall b, recorded b -> recorded (run es b).1.
Proof.
  induction es as [| e es IH]; intros b Hb; [exact Hb |].
  rewrite run_cons. cbn [fst]. apply IH, recorded_step, Hb.
Qed.

Lemma recorded_constructor uuid o : recorded (constructor uuid o).
Proof.
  unfold constructor.
  set (b0 := match options_timeout o with Some _ => _ | None => _ end).
  assert (Hb0 : recorded b0).
  { subst b0. destruct (options_timeout o); (split; [reflexivity |]);
      intros p Hp; cbn in Hp; now apply elem_of_nil in Hp. }
  assert (Hauth : forall ps,
            recorded (let '(p, b) := command ps b0 in with_awaited (Some p) b)).
  { intros ps. pose proof (recorded_step (CallCommand ps) b0 Hb0) as Hc.
    cbn [step fst] in Hc. destruct (command ps b0) as [p b']. exact Hc. }
  unfold auth. cbn [username password].
  destruct (options_username o) as [u |], (options_password o) as [pw |];
    try apply Hauth; try exact Hb0.
Qed.

(** C5: [command] appends the pending entry first and writes to the
    transport after it, if it writes at all: the state in which it encodes
    and writes already holds the new entry at the tail of the queue, with
    its promise pending, and the write is the one thing done after that.
    So in every run of a connection, at every point, no more writes have
    been made than entries pushed, every promise was made by a push, and
    every entry of the queue was pushed before: no reply can arrive for a
    command whose entry is not yet in the queue. *)
Theorem push_precedes_write :
  (forall parameters b,
     exists w,
       trace (command parameters b).2 =
         trace b ++ Push (command parameters b).1 :: w /\
       (w = [] \/ exists data, w = [Write data])) /\
  (forall uuid options es,
     registered_first (trace (run es (constructor uuid options)).1)) /\
  (forall parameters b,
     (command parameters b).1 = length (promises b) /\
     exists registered,
       callbacks registered = callbacks b ++ [Settle (length (promises b))] /\
       promises registered = promises b ++ [Pending] /\
       trace registered = trace b ++ [Push (length (promises b))] /\
       (command parameters b).2 =
         match codec_encode parameters with
         | Some data => emit (Write data) registered
         | None =>
           settle (length (promises b)) (Rejected EncodeError) registered
         end) /\
  (forall uuid options es,
     pushes (trace (run es (constructor uuid options)).1) =
       length (promises (run es (constructor uuid options)).1) /\
     writes (trace (run es (constructor uuid options)).1) <=
       length (promises (run es (constructor uuid options)).1) /\
     forall p,
       Settle p ∈ callbacks (run es (constructor uuid options)).1 ->
       Push (Message := Message) p ∈
         trace (run es (constructor uuid options)).1).
Proof.
  assert (Hfirst : forall uuid options es,
            registered_first (trace (run es (constructor uuid options)).1)).
  { intros uuid options es.
    destruct (run_trace es (constructor uuid options)) as (s & Hs & Hr).
    rewrite Hs. apply registered_first_app; [apply constructor_trace | exact Hr]. }
  split; [apply command_trace |]. split; [exact Hfirst |]. split.
  - intros parameters b. split; [apply command_fst | apply command_registered].
  - intros uuid options es.
    destruct (recorded_run es _ (recorded_constructor uuid options)) as [Hn Hin].
    split; [exact Hn |]. split; [| exact Hin].
    rewrite <- Hn. specialize (Hfirst uuid options es
      (length (trace (run es (constructor uuid options)).1))).
    rewrite firstn_all in Hfirst. exact Hfirst.
Qed.

End order_facts.

(* ===================================================================== *)
(** * The further properties on sample connections *)
(* ===================================================================== *)

Section more_examples.


Lemma settled_is_final_sample :
  (promises (on_data ok_then_error three_pending).1 !! 1 =
     Some (Resolved (Error (text "ERR wrong number"))) /\
   Resolved (Error (text "ERR wrong number")) <> Pending) /\
  promises
    (run [SocketData (text "+OK" ++ CRLF ++ text ":1" ++ CRLF);
          CallCommand GET_k; SocketClosed true]
         (on_data ok_then_error three_pending).1).1 !! 1 =
    Some (Resolved (Error (text "ERR wrong number"))).
Proof.
  assert (H1 : promises (on_data ok_then_error three_pending).1 !! 1 =
               Some (Resolved (Error (text "ERR wrong number"))))
    by (vm_compute; reflexivity).
  assert (H2 : Resolved (Error (text "ERR wrong number")) <> Pending)
    by discriminate.
  split; [split; [exact H1 | exact H2] |].
  exact (settled_is_final (codec := resp) _ _ _ _ H1 H2).
Defined.

Lemma one_pending_NoDup : NoDup (callbacks (issued [SET_k_v])).
Proof.
  change (callbacks (issued [SET_k_v])) with [Settle 0].
  apply NoDup_singleton.
Defined.

Lemma ok_then_error_parsed_one :
  codec_parse (codec_write ok_then_error (protocol (issued [SET_k_v]))) =
  (Some [Simple (text "OK"); Error (text "ERR wrong number")],
   {| buffer := [] |}).
Proof. vm_compute. reflexivity. Defined.

Lemma replies_beyond_queue_sample :
  (codec_parse (codec_write ok_then_error (protocol (issued [SET_k_v]))) =
     (Some [Simple (text "OK"); Error (text "ERR wrong number")],
      {| buffer := [] |}) /\
   NoDup (callbacks (issued [SET_k_v]))) /\
  protocol (on_data ok_then_error (issued [SET_k_v])).1 = {| buffer := [] |} /\
  callbacks (on_data ok_then_error (issued [SET_k_v])).1 =
    drop 2 (callbacks (issued [SET_k_v])) /\
  (forall i p m,
     callbacks (issued [SET_k_v]) !! i = Some (Settle p) ->
     [Simple (text "OK"); Error (text "ERR wrong number")] !! i = Some m ->
     promises (issued [SET_k_v]) !! p = Some Pending ->
     promises (on_data ok_then_error (issued [SET_k_v])).1 !! p =
       Some (Resolved m)).
Proof.
  split; [split; [exact ok_then_error_parsed_one | exact one_pending_NoDup] |].
  pose proof (replies_beyond_queue (issued [SET_k_v]) ok_then_error _ _
                ok_then_error_parsed_one one_pending_NoDup) as H.
  cbn [length] in H. exact H.
Defined.

Lemma auth_reply_decides_sample :
  (awaited (constructor (codec := resp) "" with_password) = Some 0 /\
   callbacks (constructor (codec := resp) "" with_password) = [Settle 0] /\
   promises (constructor (codec := resp) "" with_password) !! 0 = Some Pending /\
   codec_parse
     (codec_write (text "-ERR invalid password" ++ CRLF)
        (protocol (constructor (codec := resp) "" with_password))) =
     (Some [Error (text "ERR invalid password")], {| buffer := [] |})) /\
  awaited
    (auth_resume
       (on_data (text "-ERR invalid password" ++ CRLF)
          (constructor (codec := resp) "" with_password)).1) = None /\
  promises
    (auth_resume
       (on_data (text "-ERR invalid password" ++ CRLF)
          (constructor (codec := resp) "" with_password)).1) !! 0 =
    Some (Resolved (Error (text "ERR invalid password"))) /\
  trace
    (auth_resume
       (on_data (text "-ERR invalid password" ++ CRLF)
          (constructor (codec := resp) "" with_password)).1) =
    trace (constructor (codec := resp) "" with_password) ++
    [ConsoleLog (Thrown (Error (text "ERR invalid password"))); End].
Proof.
  assert (H1 : awaited (constructor (codec := resp) "" with_password) = Some 0)
    by (vm_compute; reflexivity).
  assert (H2 : callbacks (constructor (codec := resp) "" with_password) =
               [Settle 0]) by (vm_compute; reflexivity).
  assert (H3 : promises (constructor (codec := resp) "" with_password) !! 0 =
               Some Pending) by (vm_compute; reflexivity).
  assert (H4 : codec_parse
                 (codec_write (text "-ERR invalid password" ++ CRLF)
                    (protocol (constructor (codec := resp) "" with_password))) =
               (Some [Error (text "ERR invalid password")], {| buffer := [] |}))
    by (vm_compute; reflexivity).
  split; [split; [exact H1 | split; [exact H2 | split; [exact H3 | exact H4]]] |].
  pose proof (auth_reply_decides (codec := resp) _ _ _ _ _ _ _ H1 H2 H3 H4) as H.
  change (handle_error (constructor (codec := resp) "" with_password))
    with (@None listener) in H.
  cbn [instanceof_Error resp is_Error] in H. exact H.
Defined.

Lemma socket_end_needs_a_cause_sample :
  forallb (fun e : RespEvent => negb (may_end e))
    [CallCommand GET_k; SocketFailed (SocketError 104);
     SocketData (text "?" ++ CRLF); SocketClosed true; SocketConnect;
     CallOn "data" 3] = true /\
  ended
    (trace
       (run [CallCommand GET_k; SocketFailed (SocketError 104);
             SocketData (text "?" ++ CRLF); SocketClosed true; SocketConnect;
             CallOn "data" 3]
            (constructor (codec := resp) "" with_password)).1) = 0.
Proof.
  assert (H : forallb (fun e : RespEvent => negb (may_end e))
                [CallCommand GET_k; SocketFailed (SocketError 104);
                 SocketData (text "?" ++ CRLF); SocketClosed true;
                 SocketConnect; CallOn "data" 3] = true) by reflexivity.
  split; [exact H |].
  exact (proj1 (socket_end_needs_a_cause (codec := resp) "" with_password _ H)).
Defined.

Lemma failed_encode_shifts_pairing_sample :
  (callbacks (issued []) = [] /\
   codec_encode (Codec := resp) [Str (text "GET"); Other] = None /\
   codec_encode (Codec := resp) SET_k_v = Some (request_frame SET_k_v) /\
   codec_parse (codec_write (text "+OK" ++ CRLF) (protocol (issued []))) =
     (Some [Simple (text "OK")], {| buffer := [] |})) /\
  promises
    (on_data (text "+OK" ++ CRLF)
       (command SET_k_v (command [Str (text "GET"); Other] (issued [])).2).2).1 =
    promises (issued []) ++ [Rejected EncodeError; Pending] /\
  callbacks
    (on_data (text "+OK" ++ CRLF)
       (command SET_k_v (command [Str (text "GET"); Other] (issued [])).2).2).1 =
    [Settle (S (length (promises (issued []))))] /\
  (on_data (text "+OK" ++ CRLF)
     (command SET_k_v (command [Str (text "GET"); Other] (issued [])).2).2).2 =
    None.
Proof.
  assert (H1 : callbacks (issued []) = []) by reflexivity.
  assert (H2 : codec_encode (Codec := resp) [Str (text "GET"); Other] = None)
    by reflexivity.
  assert (H3 : codec_encode (Codec := resp) SET_k_v =
               Some (request_frame SET_k_v)) by (vm_compute; reflexivity).
  assert (H4 : codec_parse (codec_write (text "+OK" ++ CRLF)
                              (protocol (issued []))) =
               (Some [Simple (text "OK")], {| buffer := [] |}))
    by (vm_compute; reflexivity).
  split; [split; [exact H1 | split; [exact H2 | split; [exact H3 | exact H4]]] |].
  exact (failed_encode_shifts_pairing (codec := resp) _ _ _ _ _ _ _ H1 H2 H3 H4).
Defined.

Lemma queue_keeps_issue_order_sample :
  (0 < 2 /\
   callbacks
     (run [CallCommand SET_k_v; CallCommand GET_k]
          (constructor (codec := resp) "" with_password)).1 !! 0 =
     Some (Settle 0) /\
   callbacks
     (run [CallCommand SET_k_v; CallCommand GET_k]
          (constructor (codec := resp) "" with_password)).1 !! 2 =
     Some (Settle 2)) /\
  0 < 2 /\
  2 < length
        (promises
           (run [CallCommand SET_k_v; CallCommand GET_k]
                (constructor (codec := resp) "" with_password)).1).
Proof.
  assert (H1 : 0 < 2) by lia.
  assert (H2 : callbacks
                 (run [CallCommand SET_k_v; CallCommand GET_k]
                      (constructor (codec := resp) "" with_password)).1 !! 0 =
               Some (Settle 0)) by (vm_compute; reflexivity).
  assert (H3 : callbacks
                 (run [CallCommand SET_k_v; CallCommand GET_k]
                      (constructor (codec := resp) "" with_password)).1 !! 2 =
               Some (Settle 2)) by (vm_compute; reflexivity).
  split; [split; [exact H1 | split; [exact H2 | exact H3]] |].
  destruct (queue_keeps_issue_order (codec := resp) "" with_password
              [CallCommand SET_k_v; CallCommand GET_k]) as [Hbound Horder].
  split; [exact (Horder 0 2 0 2 H1 H2 H3) | exact (Hbound 2 2 H3)].
Defined.

(** A connection issues two commands, one of them with a parameter that
    does not encode: both entries are queued, both promises exist, and
    each entry of the queue has its push in the trace before the one
    write. *)
Lemma push_precedes_write_sample :
  callbacks (issued [[Str (text "GET"); Other]; SET_k_v]) =
    [Settle 0; Settle 1] /\
  trace (issued [[Str (text "GET"); Other]; SET_k_v]) =
    [Push 0; Push 1; Write (request_frame SET_k_v)] /\
  pushes (trace (issued [[Str (text "GET"); Other]; SET_k_v])) =
    length (promises (issued [[Str (text "GET"); Other]; SET_k_v])) /\
  (forall p,
     Settle p ∈ callbacks (issued [[Str (text "GET"); Other]; SET_k_v]) ->
     Push p ∈ trace (issued [[Str (text "GET"); Other]; SET_k_v])).
Proof.
  split; [vm_compute; reflexivity |]. split; [vm_compute; reflexivity |].
  destruct (proj2 (proj2 (proj2 (push_precedes_write (codec := resp)))) ""
              no_options
              (CallCommand <$> [[Str (text "GET"); Other]; SET_k_v]))
    as (Hn & _ & Hin).
  split; [exact Hn | exact Hin].
Defined.

End more_examples.
